(** * neurostack: the agent orchestrator's workflow engine

    A shallow embedding of [src/neurostack/core/agents/orchestrator.py]
    (class [AgentOrchestrator]) and the properties of its scheduling loop,
    its placeholder substitution and its error handling.

    Conventions of the embedding:
    - a Python [str] is a [string]; [Any] payloads are the values of
      [pyvalue];
    - a Python [dict] whose iteration order is observable ([step_results],
      [errors]) is an insertion-ordered association list ([pydict]);
      [self.agents], [self.workflows] and [self.active_workflows] are
      [gmap]s; the [set] [completed_steps] is a [gset];
    - an agent is an external, stateful collaborator: calling it maps the
      state of the outside world to an outcome and a new state;
    - the [while] loop is iterated with fuel; running out of fuel is [None]
      and means that the loop is still running after that many rounds. *)

From Stdlib Require Import ZArith NArith Ascii String DecimalString List Lia.
From stdpp Require Import gmap strings list.

Set Warnings "-register-all".
Local Open Scope Z_scope.

(* ===================================================================== *)
(** ** Python strings *)
(* ===================================================================== *)

Module PyStr.

(** [s[n:]] for [0 <= n]. *)
Fixpoint drop (n : nat) (s : string) : string :=
match n, s with
| O, _ => s
| S _, EmptyString => EmptyString
| S k, String _ s' => drop k s'
end.

(** [sub in s]: [sub] occurs in [s] as a contiguous substring. *)
Fixpoint contains (sub s : string) : bool :=
String.prefix sub s ||
match s with
| EmptyString => false
| String _ s' => contains sub s'
end.

(** The scan of [str.replace] for a non-empty [old]: left to right, at each
  position either [old] starts here (emit [new], jump over [old]) or the
  character is copied.  [skip] counts the characters of a matched [old]
  that are still to be jumped over. *)
Fixpoint replace_from (old new : string) (skip : nat) (s : string) : string :=
match s with
| EmptyString => EmptyString
| String c s' =>
    match skip with
    | S k => replace_from old new k s'
    | O =>
        if String.prefix old s
        then new +:+ replace_from old new (String.length old - 1) s'
        else String c (replace_from old new 0 s')
    end
end.

(** For the empty pattern Python inserts [new] before every character and
  at the end. *)
Fixpoint intersperse (new s : string) : string :=
match s with
| EmptyString => new
| String c s' => new +:+ String c (intersperse new s')
end.

(** [s.replace(old, new)] *)
Definition replace (s old new : string) : string :=
match old with
| EmptyString => intersperse new s
| String _ _ => replace_from old new 0 s
end.

(** Hexadecimal digit, lower case. *)
Definition hex_digit (n : N) : ascii :=
if (n <? 10)%N then ascii_of_N (48 + n) else ascii_of_N (87 + n).

Definition backslash : ascii := ascii_of_N 92.
Definition dquote : ascii := ascii_of_N 34.
Definition squote : ascii := ascii_of_N 39.

Definition escape (c : ascii) : string := String backslash (String c EmptyString).

(** [repr] escapes: the backslash, the chosen quote, newline, carriage
  return, tab, and every character below U+0100 that [str.isprintable]
  rejects (written as a two-digit hexadecimal escape). *)
Definition repr_char (quote : ascii) (c : ascii) : string :=
let n := N_of_ascii c in
if Ascii.eqb c backslash then escape backslash
else if Ascii.eqb c quote then escape quote
else if (n =? 10)%N then escape "n"
else if (n =? 13)%N then escape "r"
else if (n =? 9)%N then escape "t"
else if ((n <? 32) || ((127 <=? n) && (n <=? 160)) || (n =? 173))%N
     then String backslash (String "x"
            (String (hex_digit (n / 16)) (String (hex_digit (n mod 16)) EmptyString)))
else String c EmptyString.

Fixpoint repr_body (quote : ascii) (s : string) : string :=
match s with
| EmptyString => EmptyString
| String c s' => repr_char quote c +:+ repr_body quote s'
end.

(** [repr(s)] for a [str]: single quotes, unless the string has a single
  quote and no double quote. *)
Definition repr (s : string) : string :=
let quote :=
  if contains (String squote EmptyString) s
     && negb (contains (String dquote EmptyString) s)
  then dquote else squote in
String quote (repr_body quote s +:+ String quote EmptyString).

(** [", ".join(l)] *)
Fixpoint join_comma (l : list string) : string :=
match l with
| [] => EmptyString
| [x] => x
| x :: l' => x +:+ ", " +:+ join_comma l'
end.

End PyStr.

(* ===================================================================== *)
(** ** Python values and insertion-ordered dictionaries *)
(* ===================================================================== *)

(** The payloads that travel as [Any]: tasks and step results. *)
Inductive pyvalue : Type :=
  | VNone
  | VBool (b : bool)
  | VInt (n : Z)
  | VStr (s : string)
  | VList (l : list pyvalue).

Definition str_of_Z (n : Z) : string := NilZero.string_of_int (Z.to_int n).

(** [repr(v)] and [str(v)]; they differ on strings only. *)
Fixpoint py_repr (v : pyvalue) : string :=
  match v with
  | VNone => "None"
  | VBool true => "True"
  | VBool false => "False"
  | VInt n => str_of_Z n
  | VStr s => PyStr.repr s
  | VList l => "[" +:+ PyStr.join_comma (map py_repr l) +:+ "]"
  end.

Definition py_str (v : pyvalue) : string :=
  match v with
  | VStr s => s
  | _ => py_repr v
  end.

(** [isinstance(v, str)] *)
Definition is_str (v : pyvalue) : bool :=
  match v with VStr _ => true | _ => false end.

(** A [dict] with string keys, in insertion order. *)
Definition pydict (V : Type) : Type := list (string * V).

Section PyDict.
Context {V : Type}.

Fixpoint dict_get (k : string) (d : pydict V) : option V :=
  match d with
  | [] => None
  | (k', v) :: d' => if String.eqb k k' then Some v else dict_get k d'
  end.

(** [d[k] = v]: an existing key keeps its position, a new key goes last. *)
Fixpoint dict_set (k : string) (v : V) (d : pydict V) : pydict V :=
  match d with
  | [] => [(k, v)]
  | (k', v') :: d' =>
      if String.eqb k k' then (k', v) :: d' else (k', v') :: dict_set k v d'
  end.

Definition dict_keys (d : pydict V) : list string := fst <$> d.

(** [k in d] *)
Definition dict_mem (k : string) (d : pydict V) : bool :=
  match dict_get k d with Some _ => true | None => false end.
End PyDict.

(* ===================================================================== *)
(** ** Placeholder substitution: [AgentOrchestrator._prepare_task] *)
(* ===================================================================== *)

(** [f"{{step.{step_id}}}"] *)
Definition placeholder (step_id : string) : string :=
  "{step." +:+ step_id +:+ "}".

(** One round of the [for] loop over [step_results.items()]. *)
Definition substitute_one (task : string) (item : string * pyvalue) : string :=
  let '(step_id, result) := item in
  if PyStr.contains (placeholder step_id) task
  then PyStr.replace task (placeholder step_id) (py_str result)
  else task.

Definition _prepare_task (task : pyvalue) (step_results : pydict pyvalue) : pyvalue :=
  match task with
  | VStr s => VStr (fold_left substitute_one step_results s)
  | _ => task
  end.

(** *** What substitution means, in the words of the specification

    [occurs sub s]: [sub] is a contiguous part of [s].  [replaced_all old
    new s out]: [out] is [s] with each occurrence of [old], found from left
    to right, replaced by [new], and every other character kept.
    [substituted d s out]: one such pass per entry of [d], in the order of
    the entries, for the pattern of the entry's step id and the stringified
    result of that step. *)
Module Spec.

Definition occurs (sub s : string) : Prop :=
  exists u v, s = u +:+ sub +:+ v.

Inductive replaced_all (old new : string) : string -> string -> Prop :=
  | replaced_none s :
      ~ occurs old s ->
      replaced_all old new s s
  | replaced_first pre post out :
      (forall u v, pre +:+ old +:+ post = u +:+ old +:+ v ->
                   (String.length pre <= String.length u)%nat) ->
      replaced_all old new post out ->
      replaced_all old new (pre +:+ old +:+ post) (pre +:+ new +:+ out).

Inductive substituted : pydict pyvalue -> string -> string -> Prop :=
  | substituted_nil s :
      substituted [] s s
  | substituted_cons step_id r rest s s1 out :
      replaced_all (placeholder step_id) (py_str r) s s1 ->
      substituted rest s1 out ->
      substituted ((step_id, r) :: rest) s out.

End Spec.

(* ===================================================================== *)
(** ** The data model *)
(* ===================================================================== *)

Inductive WorkflowState : Type :=
  | PENDING
  | RUNNING
  | COMPLETED
  | FAILED
  | CANCELLED.

(** [uuid.UUID], by its 128-bit integer value. *)
Definition UUID : Type := N.

Fixpoint hex_digits (k : nat) (n : N) (acc : string) : string :=
  match k with
  | O => acc
  | S k' => hex_digits k' (n / 16)%N (String (PyStr.hex_digit (n mod 16)%N) acc)
  end.

(** [str(u)]: 32 hexadecimal digits in groups of 8-4-4-4-12. *)
Definition uuid_str (u : UUID) : string :=
  let h := hex_digits 32 u EmptyString in
  String.substring 0 8 h +:+ "-" +:+ String.substring 8 4 h +:+ "-" +:+
  String.substring 12 4 h +:+ "-" +:+ String.substring 16 4 h +:+ "-" +:+
  String.substring 20 12 h.

(** [WorkflowStep].  The fields [timeout] and [metadata] are never read by
    the orchestrator and are left out. *)
Record WorkflowStep : Type := mkStep {
  id : string;
  agent_name : string;
  task : pyvalue;
  dependencies : list string;
  retry_count : Z;
  max_retries : Z
}.

(** [WorkflowResult].  [execution_time] and [metadata] keep their defaults
    for the whole run and are left out. *)
Record WorkflowResult : Type := mkResult {
  workflow_id : UUID;
  state : WorkflowState;
  results : pydict pyvalue;
  errors : pydict string
}.

(** Assignments to the fields of a result object. *)
Definition set_state (r : WorkflowResult) (s : WorkflowState) : WorkflowResult :=
  mkResult (workflow_id r) s (results r) (errors r).

Definition set_results (r : WorkflowResult) (d : pydict pyvalue) : WorkflowResult :=
  mkResult (workflow_id r) (state r) d (errors r).

Definition set_error (r : WorkflowResult) (key msg : string) : WorkflowResult :=
  mkResult (workflow_id r) (state r) (results r) (dict_set key msg (errors r)).

(** [WorkflowDefinition] *)
Record WorkflowDefinition : Type := mkDefinition {
  name : string;
  steps : list WorkflowStep;
  max_concurrent : Z
}.

(** What an awaited call delivers: a value, or an exception, of which only
    [str(e)] is ever used. *)
Inductive outcome : Type :=
  | Returned (v : pyvalue)
  | Raised (msg : string).

(** [l[:n]] for a Python [int] [n]: a negative bound counts from the end. *)
Definition py_slice_to {A : Type} (l : list A) (n : Z) : list A :=
  if 0 <=? n then take (Z.to_nat n) l
  else take (Z.to_nat (Z.of_nat (length l) + n)) l.

(* ===================================================================== *)
(** ** The orchestrator *)
(* ===================================================================== *)

Section Orchestrator.
(** [World] is the state outside the orchestrator that agents read and
    change (their own fields, memories, services); [Ctx] is
    [AgentContext]. *)
Context {World Ctx : Type}.

(** An agent object, as far as the orchestrator uses it.  [truthy] is what
    [bool(agent)] gives: True for an object whose class defines neither
    [__bool__] nor [__len__], as [Agent] and [SimpleAgent] do not, and
    whatever those methods say otherwise.  [execute] is
    [Agent.execute(task, context)]. *)
Record Agent : Type := mkAgent {
  truthy : bool;
  execute : pyvalue -> Ctx -> World -> outcome * World
}.

Record AgentOrchestrator : Type := mkOrchestrator {
  agents : gmap string Agent;
  workflows : gmap UUID WorkflowDefinition;
  active_workflows : gmap UUID WorkflowResult
}.

Definition register_agent (self : AgentOrchestrator) (name : string) (agent : Agent)
  : AgentOrchestrator :=
  mkOrchestrator (<[name := agent]> (agents self)) (workflows self) (active_workflows self).

Definition get_agent (self : AgentOrchestrator) (name : string) : option Agent :=
  agents self !! name.

(** [create_workflow]; the identity drawn by [uuid4()] is an argument. *)
Definition create_workflow (self : AgentOrchestrator) (fresh : UUID)
    (definition : WorkflowDefinition) : UUID * AgentOrchestrator :=
  (fresh,
   mkOrchestrator (agents self) (<[fresh := definition]> (workflows self))
                  (active_workflows self)).

(** [_execute_step]: look the agent up, prepare the task against the
    [step_results] found when the coroutine runs, call the agent.  The test
    [if not agent] rejects a missing agent and a registered one that is
    falsy alike. *)
Definition _execute_step (self : AgentOrchestrator) (step : WorkflowStep)
    (context : Ctx) (step_results : pydict pyvalue) (w : World) : outcome * World :=
  match get_agent self (agent_name step) with
  | None => (Raised ("Agent " +:+ agent_name step +:+ " not found"), w)
  | Some agent =>
      if truthy agent
      then execute agent (_prepare_task (task step) step_results) context w
      else (Raised ("Agent " +:+ agent_name step +:+ " not found"), w)
  end.

(** The variables of the loop in [run_workflow].  [step_results] is the one
    dictionary object that every coroutine of a batch receives. *)
Record LoopState : Type := mkLoop {
  completed_steps : gset string;
  step_results : pydict pyvalue;
  result : WorkflowResult;
  world : World
}.

(** [asyncio.gather] over the tasks with [return_exceptions=True]: the coroutines run in
    list order; each reads the shared [step_results] of the loop state as
    it is when its turn comes, and changes only the world. *)
Fixpoint gather (self : AgentOrchestrator) (context : Ctx) (batch : list WorkflowStep)
    (st : LoopState) : list outcome * LoopState :=
  match batch with
  | [] => ([], st)
  | step :: rest =>
      let '(o, w') := _execute_step self step context (step_results st) (world st) in
      let '(os, st') :=
        gather self context rest
               (mkLoop (completed_steps st) (step_results st) (result st) w') in
      (o :: os, st')
  end.

(** The body of [for step, step_result in zip(...)]. *)
Definition record_outcome (st : LoopState) (item : WorkflowStep * outcome) : LoopState :=
  let '(step, step_result) := item in
  match step_result with
  | Raised msg =>
      mkLoop (completed_steps st) (step_results st)
             (set_state (set_error (result st) (id step) msg) FAILED)
             (world st)
  | Returned v =>
      mkLoop ({[ id step ]} ∪ completed_steps st)
             (dict_set (id step) v (step_results st))
             (result st) (world st)
  end.

(** The list comprehension that computes the frontier. *)
Definition executable_steps (definition : WorkflowDefinition)
    (completed : gset string) : list WorkflowStep :=
  filter (fun step =>
            (id step ∉ completed) ∧
            Forall (fun dep => dep ∈ completed) (dependencies step))
         (steps definition).

Definition remaining_steps (definition : WorkflowDefinition)
    (completed : gset string) : list string :=
  id <$> filter (fun step => id step ∉ completed) (steps definition).

Definition circular_message (remaining : list string) : string :=
  "Circular dependency detected in steps: " +:+ py_repr (VList (map VStr remaining)).

(** [executable_steps[:definition.max_concurrent]], the batch that a round
    dispatches. *)
Definition next_batch (definition : WorkflowDefinition) (st : LoopState)
    : list WorkflowStep :=
  py_slice_to (executable_steps definition (completed_steps st))
              (max_concurrent definition).

(** How one round of the [while] body ends. *)
Inductive LoopStep : Type :=
  | Continue (st : LoopState)
  | Throw (msg : string) (st : LoopState).

Definition loop_body (self : AgentOrchestrator) (definition : WorkflowDefinition)
    (context : Ctx) (st : LoopState) : LoopStep :=
  let executable := executable_steps definition (completed_steps st) in
  match executable with
  | [] => Throw (circular_message (remaining_steps definition (completed_steps st))) st
  | _ :: _ =>
      let batch := next_batch definition st in
      match batch with
      | [] => Continue st
      | _ :: _ =>
          let '(step_results_batch, st') := gather self context batch st in
          Continue (fold_left record_outcome (zip batch step_results_batch) st')
      end
  end.

(** [while len(completed_steps) < len(definition.steps)], with fuel.
    [None]: the loop is still running when the fuel is used up. *)
Fixpoint while_loop (fuel : nat) (self : AgentOrchestrator)
    (definition : WorkflowDefinition) (context : Ctx) (st : LoopState)
    : option LoopStep :=
  if (size (completed_steps st) <? length (steps definition))%nat then
    match fuel with
    | O => None
    | S fuel' =>
        match loop_body self definition context st with
        | Continue st' => while_loop fuel' self definition context st'
        | Throw msg st' => Some (Throw msg st')
        end
    end
  else Some (Continue st).

(** What the caller of [run_workflow] gets. *)
Inductive call_result : Type :=
  | Returns (r : WorkflowResult)
  | Raises (msg : string).

Definition initial_result (workflow_id : UUID) : WorkflowResult :=
  mkResult workflow_id RUNNING [] [].

Definition initial_loop (workflow_id : UUID) (w : World) : LoopState :=
  mkLoop ∅ [] (initial_result workflow_id) w.

(** The code after the loop, the [except] clause and the [finally] clause. *)
Definition conclude (self : AgentOrchestrator) (workflow_id : UUID) (exit : LoopStep)
    : call_result * AgentOrchestrator * World :=
  let '(result, w) :=
    match exit with
    | Continue st =>
        (set_state (set_results (result st) (step_results st)) COMPLETED, world st)
    | Throw msg st =>
        (set_error (set_state (result st) FAILED) "workflow" msg, world st)
    end in
  (Returns result,
   mkOrchestrator (agents self) (workflows self) (delete workflow_id (active_workflows self)),
   w).

(** [self.active_workflows[workflow_id] = result] *)
Definition store_active (self : AgentOrchestrator) (workflow_id : UUID)
    (result : WorkflowResult) : AgentOrchestrator :=
  mkOrchestrator (agents self) (workflows self)
                 (<[workflow_id := result]> (active_workflows self)).

(** [run_workflow].  [new_context] is the [AgentContext()] built when the
    caller passes none. *)
Definition run_workflow (fuel : nat) (new_context : Ctx) (self : AgentOrchestrator)
    (workflow_id : UUID) (context : option Ctx) (w : World)
    : option (call_result * AgentOrchestrator * World) :=
  match workflows self !! workflow_id with
  | None => Some (Raises ("Workflow " +:+ uuid_str workflow_id +:+ " not found"), self, w)
  | Some definition =>
      let result := initial_result workflow_id in
      let self' := store_active self workflow_id result in
      let context := default new_context context in
      match while_loop fuel self' definition context (initial_loop workflow_id w) with
      | None => None
      | Some exit => Some (conclude self' workflow_id exit)
      end
  end.

(** [reaches ... st0 n st]: the loop started in [st0] is at the top of its
    [while] in state [st] after [n] complete rounds. *)
Inductive reaches (self : AgentOrchestrator) (definition : WorkflowDefinition)
    (context : Ctx) (st0 : LoopState) : nat -> LoopState -> Prop :=
  | reaches_start : reaches self definition context st0 O st0
  | reaches_round n st st' :
      reaches self definition context st0 n st ->
      (size (completed_steps st) < length (steps definition))%nat ->
      loop_body self definition context st = Continue st' ->
      reaches self definition context st0 (S n) st'.

(** What every round of the loop keeps true: the keys of [step_results]
    are the completed ids, the completed ids are ids of steps of the
    definition, and the result object is still the one of this run with no
    results assigned. *)
Definition loop_invariant (definition : WorkflowDefinition) (workflow_id' : UUID)
    (st : LoopState) : Prop :=
  (forall k, k ∈ completed_steps st <-> is_Some (dict_get k (step_results st))) /\
  (forall k, k ∈ completed_steps st ->
             exists step, step ∈ steps definition /\ id step = k) /\
  workflow_id (result st) = workflow_id' /\
  results (result st) = [].

(** The batch as the specification describes it: every step of the batch
    resolves its placeholders against one and the same dictionary
    [visible], the results of the batches before. *)
Fixpoint gather_on_snapshot (self : AgentOrchestrator) (context : Ctx)
    (visible : pydict pyvalue) (batch : list WorkflowStep) (w : World)
    : list outcome * World :=
  match batch with
  | [] => ([], w)
  | step :: rest =>
      let '(o, w') := _execute_step self step context visible w in
      let '(os, w'') := gather_on_snapshot self context visible rest w' in
      (o :: os, w'')
  end.

End Orchestrator.

(** A finite acyclic step graph whose dependency ids all exist: the steps
    can be listed so that every dependency of a step is the id of a step
    listed before it. *)
Definition topologically_ordered (l : list WorkflowStep) : Prop :=
  forall i step dep,
    l !! i = Some step -> dep ∈ dependencies step ->
    exists j step', (j < i)%nat /\ l !! j = Some step' /\ id step' = dep.

Definition acyclic (definition : WorkflowDefinition) : Prop :=
  exists l, l ≡ₚ steps definition /\ topologically_ordered l.

Arguments Agent : clear implicits.
Arguments AgentOrchestrator : clear implicits.
Arguments LoopState : clear implicits.
Arguments LoopStep : clear implicits.

(* ===================================================================== *)
(** ** Concrete workflows *)
(* ===================================================================== *)

Module Scenarios.

(** A step record as [run_simple_workflow] fills it in. *)
Definition step (id agent : string) (task : pyvalue) (deps : list string) : WorkflowStep :=
  mkStep id agent task deps 0 3.

(** [WorkflowDefinition(name="simple_workflow", steps=...)], with the
    default [max_concurrent = 5]. *)
Definition simple (steps : list WorkflowStep) : WorkflowDefinition :=
  mkDefinition "simple_workflow" steps 5.

Definition wid : UUID := 7%N.

(** An orchestrator holding one workflow under [wid]. *)
Definition orchestrator {World Ctx : Type} (registry : gmap string (Agent World Ctx))
    (definition : WorkflowDefinition) : AgentOrchestrator World Ctx :=
  mkOrchestrator registry {[ wid := definition ]} ∅.

(** An agent that returns its task unchanged. *)
Definition echo {World : Type} : Agent World unit :=
  mkAgent true (fun task _ w => (Returned task, w)).

(** An agent that fails on its first call and echoes afterwards; the
    world is the number of calls made so far. *)
Definition flaky : Agent nat unit :=
  mkAgent true
    (fun task _ calls =>
       match calls with
       | O => (Raised "connection reset", S calls)
       | S _ => (Returned task, S calls)
       end).

Definition echo_registry : gmap string (Agent unit unit) := {[ "echo" := echo ]}.

Definition flaky_registry : gmap string (Agent nat unit) := {[ "flaky" := flaky ]}.

(** Scenario A: linear data flow. *)
Definition linear : WorkflowDefinition :=
  simple [ step "a" "echo" (VStr "hello") [];
           step "b" "echo" (VStr "got {step.a}") ["a"] ].

(** Scenario B: the only step names an agent that was never registered. *)
Definition ghost : WorkflowDefinition :=
  simple [ step "s" "ghost" (VStr "hello") [] ].

(** A step depending on B and B depending on A. *)
Definition cycle : WorkflowDefinition :=
  simple [ step "A" "echo" (VStr "x") ["B"];
           step "B" "echo" (VStr "y") ["A"] ].

(** One step, run by the flaky agent. *)
Definition retried : WorkflowDefinition :=
  simple [ step "s" "flaky" (VStr "hello") [] ].

(** Two steps that are both runnable at once; the second mentions the
    first in its task without depending on it. *)
Definition siblings : WorkflowDefinition :=
  simple [ step "a" "echo" (VStr "hello") [];
           step "b" "echo" (VStr "got {step.a}") [] ].

End Scenarios.

(* ===================================================================== *)
(** ** The rest of the orchestrator's interface *)
(* ===================================================================== *)

Section Interface.
Context {World Ctx : Type}.

(** [unregister_agent]: a name that is not registered is ignored. *)
Definition unregister_agent (self : AgentOrchestrator World Ctx) (name : string)
  : AgentOrchestrator World Ctx :=
  match agents self !! name with
  | Some _ =>
      mkOrchestrator (delete name (agents self)) (workflows self) (active_workflows self)
  | None => self
  end.

(** [list_agents]: the registered names.  The map of the model does not keep
    the insertion order of the dictionary, so the order of this list is not
    the one of the code; its elements are. *)
Definition list_agents (self : AgentOrchestrator World Ctx) : list string :=
  (map_to_list (agents self)).*1.

(** [get_workflow_status] *)
Definition get_workflow_status (self : AgentOrchestrator World Ctx) (workflow_id : UUID)
  : option WorkflowResult :=
  active_workflows self !! workflow_id.

(** [cancel_workflow]: the returned flag, the orchestrator afterwards, and
    the result object as the call leaves it (it is no longer in the table,
    but whoever holds it sees the new state). *)
Definition cancel_workflow (self : AgentOrchestrator World Ctx) (workflow_id : UUID)
  : bool * AgentOrchestrator World Ctx * option WorkflowResult :=
  match active_workflows self !! workflow_id with
  | Some result =>
      (true,
       mkOrchestrator (agents self) (workflows self)
                      (delete workflow_id (active_workflows self)),
       Some (set_state result CANCELLED))
  | None => (false, self, None)
  end.

(** A step dictionary as [run_simple_workflow] reads it: every key may be
    missing.  (The keys [timeout] and [metadata] only fill the fields that
    the model of [WorkflowStep] leaves out.) *)
Record StepRecord : Type := mkRecord {
  rec_id : option string;
  rec_agent : option string;
  rec_task : option pyvalue;
  rec_dependencies : option (list string);
  rec_max_retries : option Z
}.

(** The loop of [run_simple_workflow] that builds [workflow_steps], from
    index [i] on.  [inl key] is the [KeyError] of a dictionary without
    [key]: the first record that lacks one, [agent] before [task]. *)
Fixpoint workflow_steps (i : nat) (steps : list StepRecord) : string + list WorkflowStep :=
  match steps with
  | [] => inr []
  | step_dict :: rest =>
      match rec_agent step_dict with
      | None => inl "agent"
      | Some agent =>
          match rec_task step_dict with
          | None => inl "task"
          | Some task =>
              match workflow_steps (S i) rest with
              | inl key => inl key
              | inr built =>
                  inr (mkStep (default ("step_" +:+ str_of_Z (Z.of_nat i)) (rec_id step_dict))
                              agent task
                              (default [] (rec_dependencies step_dict))
                              0
                              (default 3 (rec_max_retries step_dict))
                       :: built)
              end
          end
      end
  end.

(** [run_simple_workflow]; [fresh] is the identity that [create_workflow]
    draws. *)
Definition run_simple_workflow (fuel : nat) (new_context : Ctx)
    (self : AgentOrchestrator World Ctx) (fresh : UUID) (steps : list StepRecord)
    (context : option Ctx) (w : World)
  : option (call_result * AgentOrchestrator World Ctx * World) :=
  match workflow_steps 0 steps with
  | inl key => Some (Raises (PyStr.repr key), self, w)
  | inr built =>
      let definition := mkDefinition "simple_workflow" built 5 in
      let '(workflow_id, self') := create_workflow self fresh definition in
      run_workflow fuel new_context self' workflow_id context w
  end.

(** An agent that returns a value whatever it is asked. *)
Definition never_fails (agent : Agent World Ctx) : Prop :=
  forall task context w, exists v w', execute agent task context w = (Returned v, w').

(** Every step of the definition names a registered agent that passes the
    test [if not agent] and never fails. *)
Definition reliable_agents (self : AgentOrchestrator World Ctx)
    (definition : WorkflowDefinition) : Prop :=
  forall step, step ∈ steps definition ->
    exists agent,
      agents self !! agent_name step = Some agent /\
      truthy agent = true /\
      never_fails agent.

End Interface.

(* ===================================================================== *)
(** ** [SimpleAgent] of [agents/base.py] *)
(* ===================================================================== *)

Module Base.

Inductive AgentState : Type :=
  | IDLE
  | RUNNING
  | WAITING
  | ERROR
  | COMPLETED.

(** What a call of a collaborator raises: an [Exception], or a
    [BaseException] that is not one ([CancelledError], [KeyboardInterrupt]);
    the text is [str(e)]. *)
Inductive raised : Type :=
  | AnException (msg : string)
  | NotAnException (msg : string).

(** How a call ends. *)
Inductive answer : Type :=
  | Ok (v : pyvalue)
  | Fail (e : raised).

Section SimpleAgent.
(** [W] is the state of the collaborators of the agent: its reasoning
    engine and its memory manager. *)
Context {W Ctx : Type}.

(** The fields of the agent that [execute] assigns. *)
Record AgentFields : Type := mkFields {
  state : AgentState;
  context : option Ctx
}.

(** [SimpleAgent.execute].  [reasoning] is [self.reasoning] ([None] when
    reasoning is disabled) with its [process]; [memory] is [self.memory]
    with its [store_result], which returns nothing and may raise.  The
    state is set to RUNNING before the [try]; [except Exception] sets it to
    ERROR and raises again; what is not an [Exception] passes the clause
    by, with the state as it is. *)
Definition execute
    (reasoning : option (pyvalue -> Ctx -> W -> answer * W))
    (memory : option (pyvalue -> pyvalue -> W -> option raised * W))
    (new_context : Ctx) (task : pyvalue) (context : option Ctx)
    (self : AgentFields * W) : answer * (AgentFields * W) :=
  let ctx := default new_context context in
  let '(processed, w1) :=
    match reasoning with
    | Some process => process task ctx (snd self)
    | None => (Ok (VStr ("Task completed: " +:+ py_str task)), snd self)
    end in
  match processed with
  | Fail (AnException msg) => (Fail (AnException msg), (mkFields ERROR (Some ctx), w1))
  | Fail (NotAnException msg) =>
      (Fail (NotAnException msg), (mkFields RUNNING (Some ctx), w1))
  | Ok result =>
      match memory with
      | None => (Ok result, (mkFields COMPLETED (Some ctx), w1))
      | Some store_result =>
          let '(failure, w2) := store_result task result w1 in
          match failure with
          | Some (AnException msg) =>
              (Fail (AnException msg), (mkFields ERROR (Some ctx), w2))
          | Some (NotAnException msg) =>
              (Fail (NotAnException msg), (mkFields RUNNING (Some ctx), w2))
          | None => (Ok result, (mkFields COMPLETED (Some ctx), w2))
          end
      end
  end.

End SimpleAgent.

Arguments AgentFields : clear implicits.

(** A [SimpleAgent] with reasoning and memory disabled, as the orchestrator
    calls it: the world is the fields of the agent, and [execute] with
    neither collaborator always returns.  The class defines neither
    [__bool__] nor [__len__]. *)
Definition plain_agent {Ctx : Type} : Agent (AgentFields Ctx) Ctx :=
  mkAgent true
    (fun task context _ =>
       (Returned (VStr ("Task completed: " +:+ py_str task)),
        mkFields COMPLETED (Some context))).

End Base.

(* ===================================================================== *)
(** ** More concrete workflows *)
(* ===================================================================== *)

Module Examples.

(** The two step dictionaries of [examples/agents/simple_agent_example.py]. *)
Definition sales_records : list StepRecord :=
  [ mkRecord (Some "analyze_data") (Some "data_analyst")
             (Some (VStr "Analyze sales data for Q4 2023")) None None;
    mkRecord (Some "generate_report") (Some "report_generator")
             (Some (VStr "Generate quarterly sales report based on {step.analyze_data}"))
             (Some ["analyze_data"]) None ].

(** The workflow that [run_simple_workflow] builds from them. *)
Definition sales : WorkflowDefinition :=
  Scenarios.simple
    [ Scenarios.step "analyze_data" "data_analyst"
                     (VStr "Analyze sales data for Q4 2023") [];
      Scenarios.step "generate_report" "report_generator"
                     (VStr "Generate quarterly sales report based on {step.analyze_data}")
                     ["analyze_data"] ].

(** Two [SimpleAgent]s with reasoning and memory disabled. *)
Definition plain_registry : gmap string (Agent (Base.AgentFields unit) unit) :=
  {[ "data_analyst" := Base.plain_agent; "report_generator" := Base.plain_agent ]}.

Definition idle : Base.AgentFields unit := Base.mkFields Base.IDLE None.

(** Two step dictionaries, the second without a task. *)
Definition incomplete_records : list StepRecord :=
  [ mkRecord None (Some "echo") (Some (VStr "x")) None None;
    mkRecord None (Some "echo") None None None ].

(** One step and no room to run it. *)
Definition stalled : WorkflowDefinition :=
  mkDefinition "stalled" [ Scenarios.step "a" "echo" (VStr "x") [] ] 0.

Definition empty : WorkflowDefinition := mkDefinition "empty" [] 5.

(** A cycle, one of whose steps names an agent that is not registered. *)
Definition ghost_cycle : WorkflowDefinition :=
  Scenarios.simple [ Scenarios.step "A" "ghost" (VStr "x") ["B"];
                     Scenarios.step "B" "echo" (VStr "y") ["A"] ].

End Examples.

(* ===================================================================== *)
(** * Properties *)
(* ===================================================================== *)

(** ** Strings: prefixes, occurrences and [replace] *)

#[local] Arguments String.append !_ _ / : simpl nomatch.

Section StringFacts.

Lemma append_nil_r (s : string) : s +:+ "" = s.
Proof. induction s as [|c s IH]; simpl; [reflexivity | now rewrite IH]. Qed.

Lemma append_assoc (a b c : string) : (a +:+ b) +:+ c = a +:+ b +:+ c.
Proof. induction a as [|x a IH]; simpl; [reflexivity | now rewrite IH]. Qed.

Lemma length_append (a b : string) :
  String.length (a +:+ b) = (String.length a + String.length b)%nat.
Proof. induction a as [|x a IH]; simpl; [reflexivity | now rewrite IH]. Qed.

Lemma prefix_append (a t : string) : String.prefix a (a +:+ t) = true.
Proof.
  induction a as [|x a IH]; simpl.
  - now destruct t.
  - destruct (ascii_dec x x) as [_|Hne]; [exact IH | now elim Hne].
Qed.

Lemma prefix_spec (a b : string) :
  String.prefix a b = true <-> exists t, b = a +:+ t.
Proof.
  split.
  - revert b. induction a as [|x a IH]; intros b H.
    + exists b. reflexivity.
    + destruct b as [|y b]; simpl in H; [discriminate|].
      destruct (ascii_dec x y) as [->|_]; [|discriminate].
      destruct (IH b H) as [t ->]. exists t. reflexivity.
  - intros [t ->]. apply prefix_append.
Qed.

Lemma drop_append (a t : string) : PyStr.drop (String.length a) (a +:+ t) = t.
Proof. induction a as [|x a IH]; simpl; [now destruct t | exact IH]. Qed.

(** The boolean test [sub in s] decides [Spec.occurs]. *)
Lemma contains_spec (sub s : string) :
  PyStr.contains sub s = true <-> Spec.occurs sub s.
Proof.
  induction s as [|c s IH].
  - cbn [PyStr.contains]. rewrite orb_false_r, prefix_spec. split.
    + intros [t Ht]. exists "", t. exact Ht.
    + intros [u [v H]]. destruct u; [exists v; exact H | discriminate H].
  - cbn [PyStr.contains]. rewrite orb_true_iff, prefix_spec, IH. split.
    + intros [[t Ht] | [u [v H]]].
      * exists "", t. exact Ht.
      * exists (String c u), v. simpl. now rewrite H.
    + intros [u [v H]]. destruct u as [|c' u].
      * left. exists v. exact H.
      * right. exists u, v. simpl in H. now inversion H.
Qed.

Lemma contains_false (sub s : string) :
  PyStr.contains sub s = false <-> ~ Spec.occurs sub s.
Proof.
  rewrite <- contains_spec. destruct (PyStr.contains sub s); split; congruence.
Qed.

Lemma replace_from_skip (old new : string) (k : nat) (s : string) :
  PyStr.replace_from old new k s = PyStr.replace_from old new 0 (PyStr.drop k s).
Proof.
  revert k. induction s as [|c s IH]; intros [|k]; try reflexivity.
  simpl PyStr.drop. rewrite <- IH. reflexivity.
Qed.

Context (old new : string) (old_nonempty : old <> "").

Local Notation "'scan'" := (PyStr.replace_from old new 0%nat).

Lemma replace_is_scan (s : string) : PyStr.replace s old new = scan s.
Proof. unfold PyStr.replace. destruct old; [now elim old_nonempty | reflexivity]. Qed.

Lemma scan_match (post : string) : scan (old +:+ post) = new +:+ scan post.
Proof.
  destruct old as [|a o] eqn:E; [now elim old_nonempty|].
  change (String a o +:+ post) with (String a (o +:+ post)).
  cbn [PyStr.replace_from].
  change (String a (o +:+ post)) with (String a o +:+ post).
  rewrite prefix_append. f_equal.
  rewrite replace_from_skip.
  replace (String.length (String a o) - 1)%nat with (String.length o)
    by (simpl; lia).
  now rewrite drop_append.
Qed.

Lemma scan_copy (c : ascii) (s : string) :
  String.prefix old (String c s) = false ->
  scan (String c s) = String c (scan s).
Proof. intros H. cbn [PyStr.replace_from]. now rewrite H. Qed.

Lemma occurs_nonempty : ~ Spec.occurs old "".
Proof.
  intros [u [v H]]. destruct u; simpl in H.
  - destruct old; [now elim old_nonempty | discriminate].
  - discriminate.
Qed.

Lemma scan_absent (s : string) : ~ Spec.occurs old s -> scan s = s.
Proof.
  induction s as [|c s IH]; intros H; [reflexivity|].
  rewrite scan_copy.
  - f_equal. apply IH. intros [u [v ->]]. apply H.
    exists (String c u), v. reflexivity.
  - destruct (String.prefix old (String c s)) eqn:E; [|reflexivity].
    apply prefix_spec in E as [t Ht]. elim H. exists "", t. exact Ht.
Qed.

(** Copying one more character in front of a string keeps the relation. *)
Lemma replaced_all_cons (c : ascii) (s out : string) :
  String.prefix old (String c s) = false ->
  Spec.replaced_all old new s out ->
  Spec.replaced_all old new (String c s) (String c out).
Proof.
  intros Hpre Hrep.
  assert (Hhead : forall v, String c s <> old +:+ v).
  { intros v Hv. assert (String.prefix old (String c s) = true) as Ht
      by (apply prefix_spec; eauto). congruence. }
  destruct Hrep as [s Hno | pre post out Hleft Hrest].
  - apply Spec.replaced_none. intros [u [v H]]. destruct u as [|c' u].
    + exact (Hhead v H).
    + simpl in H. inversion H; subst. apply Hno. exists u, v. reflexivity.
  - change (String c (pre +:+ old +:+ post)) with (String c pre +:+ old +:+ post) in *.
    change (String c (pre +:+ new +:+ out)) with (String c pre +:+ new +:+ out).
    apply Spec.replaced_first; [|exact Hrest].
    intros u v H. destruct u as [|c' u].
    + elim (Hhead v). exact H.
    + simpl in H. inversion H as [[Hc Ht]]. simpl. apply le_n_S. eapply Hleft. exact Ht.
Qed.

Lemma scan_replaced_all (s : string) : Spec.replaced_all old new s (scan s).
Proof.
  remember (String.length s) as n eqn:Hn.
  revert s Hn. induction n as [n IH] using lt_wf_ind. intros s Hn.
  destruct s as [|c s].
  - apply Spec.replaced_none, occurs_nonempty.
  - destruct (String.prefix old (String c s)) eqn:E.
    + apply prefix_spec in E as [post Hpost]. rewrite Hpost, scan_match.
      apply (Spec.replaced_first old new "" post).
      * intros; simpl; lia.
      * eapply IH; [|reflexivity]. subst n.
        rewrite Hpost, length_append.
        destruct old; [now elim old_nonempty | simpl; lia].
    + rewrite scan_copy by exact E.
      apply replaced_all_cons; [exact E|].
      eapply IH; [|reflexivity]. subst n. simpl. lia.
Qed.

Lemma scan_leftmost (pre post : string) :
  (forall u v, pre +:+ old +:+ post = u +:+ old +:+ v ->
               (String.length pre <= String.length u)%nat) ->
  scan (pre +:+ old +:+ post) = pre +:+ new +:+ scan post.
Proof.
  induction pre as [|c pre IH]; intros Hleft.
  - apply scan_match.
  - change (String c pre +:+ old +:+ post) with (String c (pre +:+ old +:+ post)).
    rewrite scan_copy.
    + simpl. f_equal. apply IH. intros u v H.
      specialize (Hleft (String c u) v). simpl in Hleft.
      rewrite H in Hleft. specialize (Hleft eq_refl). lia.
    + destruct (String.prefix old _) eqn:E; [|reflexivity].
      apply prefix_spec in E as [t Ht].
      specialize (Hleft "" t Ht). simpl in Hleft. lia.
Qed.

Lemma replaced_all_unique (s out : string) :
  Spec.replaced_all old new s out -> out = scan s.
Proof.
  induction 1 as [s Hno | pre post out Hleft _ IH].
  - symmetry. now apply scan_absent.
  - rewrite scan_leftmost by exact Hleft. now rewrite IH.
Qed.

End StringFacts.

(** ** Placeholder substitution *)

Lemma placeholder_nonempty (step_id : string) : placeholder step_id <> "".
Proof. discriminate. Qed.

(** The test [placeholder in task] never changes the outcome: replacing in
    a string without an occurrence gives the string back. *)
Lemma substitute_one_replace (task step_id : string) (r : pyvalue) :
  substitute_one task (step_id, r)
  = PyStr.replace task (placeholder step_id) (py_str r).
Proof.
  unfold substitute_one.
  destruct (PyStr.contains (placeholder step_id) task) eqn:E; [reflexivity|].
  rewrite replace_is_scan by apply placeholder_nonempty.
  symmetry. apply scan_absent. now apply contains_false.
Qed.

Lemma substitute_one_replaced (task step_id : string) (r : pyvalue) :
  Spec.replaced_all (placeholder step_id) (py_str r) task
                    (substitute_one task (step_id, r)).
Proof.
  rewrite substitute_one_replace, replace_is_scan by apply placeholder_nonempty.
  apply scan_replaced_all, placeholder_nonempty.
Qed.

Lemma fold_substituted (d : pydict pyvalue) (s : string) :
  Spec.substituted d s (fold_left substitute_one d s).
Proof.
  revert s. induction d as [|[step_id r] d IH]; intros s; cbn [fold_left].
  - constructor.
  - econstructor; [apply substitute_one_replaced | apply IH].
Qed.

Lemma substituted_unique (d : pydict pyvalue) (s out : string) :
  Spec.substituted d s out -> out = fold_left substitute_one d s.
Proof.
  induction 1 as [s | step_id r rest s s1 out Hone _ IH]; [reflexivity|].
  cbn [fold_left]. rewrite IH. f_equal.
  rewrite substitute_one_replace, replace_is_scan by apply placeholder_nonempty.
  now apply replaced_all_unique in Hone; [|apply placeholder_nonempty].
Qed.

(** C8.  [_prepare_task] returns a task that is not a string as it is.  For
    a string task its result is the string obtained by one replacement pass
    per entry of the results map: the pass for a step id replaces each
    occurrence of that id's placeholder by the stringified result of the
    step and keeps every other character; no other string fits that
    description. *)
Theorem prepare_task_substitutes (task : pyvalue) (step_results : pydict pyvalue) :
  match task with
  | VStr s =>
      exists out,
        _prepare_task task step_results = VStr out /\
        Spec.substituted step_results s out /\
        (forall out', Spec.substituted step_results s out' -> out' = out)
  | _ => _prepare_task task step_results = task
  end.
Proof.
  destruct task as [| b | n | s | l]; try reflexivity.
  exists (fold_left substitute_one step_results s). split; [reflexivity|].
  split; [apply fold_substituted | apply substituted_unique].
Qed.

Lemma prepare_task_app (s : string) (d1 d2 : pydict pyvalue) :
  _prepare_task (VStr s) (d1 ++ d2) = _prepare_task (_prepare_task (VStr s) d1) d2.
Proof. simpl. now rewrite fold_left_app. Qed.

Lemma replace_whole (old new : string) :
  old <> "" -> PyStr.replace old old new = new.
Proof.
  intros H. rewrite replace_is_scan by exact H.
  rewrite <- (append_nil_r old) at 2.
  rewrite scan_match by exact H. simpl. apply append_nil_r.
Qed.

(** C10.  A pass replaces every occurrence of the placeholder, not only the
    first; the passes run one after the other in the order of the entries of
    the results map, each on the output of the one before; so a placeholder
    brought in by the result of an earlier entry is replaced by the pass of
    a later entry, while the same two entries in the other order leave it
    in place. *)
Theorem substitution_cascades :
  (forall step_id r s,
      _prepare_task (VStr s) [(step_id, r)]
      = VStr (PyStr.replace s (placeholder step_id) (py_str r)) /\
      Spec.replaced_all (placeholder step_id) (py_str r) s
                        (PyStr.replace s (placeholder step_id) (py_str r))) /\
  (forall step_id r,
      _prepare_task (VStr (placeholder step_id +:+ placeholder step_id)) [(step_id, r)]
      = VStr (py_str r +:+ py_str r)) /\
  (forall s d step_id r,
      _prepare_task (VStr s) (d ++ [(step_id, r)])
      = _prepare_task (_prepare_task (VStr s) d) [(step_id, r)]) /\
  (forall a b rb,
      _prepare_task (VStr (placeholder a)) [(a, VStr (placeholder b)); (b, rb)]
      = VStr (py_str rb)) /\
  _prepare_task (VStr "{step.a}") [("b", VStr "X"); ("a", VStr "{step.b}")]
  = VStr "{step.b}".
Proof.
  split; [|split; [|split; [|split]]].
  - intros step_id r s. cbn [_prepare_task fold_left].
    rewrite substitute_one_replace. split; [reflexivity|].
    rewrite <- substitute_one_replace. apply substitute_one_replaced.
  - intros step_id r. cbn [_prepare_task fold_left].
    rewrite substitute_one_replace, replace_is_scan by apply placeholder_nonempty.
    rewrite scan_match by apply placeholder_nonempty.
    rewrite <- (append_nil_r (placeholder step_id)) at 2.
    rewrite scan_match by apply placeholder_nonempty.
    simpl PyStr.replace_from. now rewrite append_nil_r.
  - intros s d step_id r. apply prepare_task_app.
  - intros a b rb. cbn [_prepare_task fold_left].
    rewrite !substitute_one_replace. cbn [py_str].
    now rewrite !replace_whole by apply placeholder_nonempty.
  - reflexivity.
Qed.

(** ** Dictionaries *)

Section DictFacts.
Context {V : Type}.
Implicit Types (d : pydict V) (k : string).

Lemma dict_get_set_eq k (v : V) d : dict_get k (dict_set k v d) = Some v.
Proof.
  induction d as [|[k' v'] d IH]; simpl.
  - now rewrite String.eqb_refl.
  - destruct (String.eqb k k') eqn:E; simpl; rewrite E; [reflexivity | exact IH].
Qed.

Lemma dict_get_set_ne k k' (v : V) d :
  k <> k' -> dict_get k (dict_set k' v d) = dict_get k d.
Proof.
  intros Hne. induction d as [|[k0 v0] d IH]; simpl.
  - now apply String.eqb_neq in Hne as ->.
  - destruct (String.eqb k' k0) eqn:E; simpl.
    + apply String.eqb_eq in E as <-.
      now apply String.eqb_neq in Hne as ->.
    + now rewrite IH.
Qed.

Lemma dict_get_set_is_Some k k' (v : V) d :
  is_Some (dict_get k (dict_set k' v d)) <-> k = k' \/ is_Some (dict_get k d).
Proof.
  destruct (decide (k = k')) as [->|Hne].
  - rewrite dict_get_set_eq. split; eauto.
  - rewrite dict_get_set_ne by exact Hne. split; [eauto | now intros [|]].
Qed.
End DictFacts.

(** ** The scheduling loop *)

Section LoopFacts.
Context {World Ctx : Type}.
Implicit Types (self : AgentOrchestrator World Ctx) (st : LoopState World)
               (definition : WorkflowDefinition) (context : Ctx).

Lemma py_slice_to_subseteq {A} (l : list A) (n : Z) : py_slice_to l n ⊆ l.
Proof. unfold py_slice_to. destruct (0 <=? n); apply subseteq_take. Qed.

Lemma executable_in_definition definition completed step :
  step ∈ executable_steps definition completed ->
  step ∈ steps definition /\ id step ∉ completed.
Proof. unfold executable_steps. rewrite list_elem_of_filter. tauto. Qed.

Lemma remaining_steps_spec definition completed k :
  k ∈ remaining_steps definition completed <->
  exists step, step ∈ steps definition /\ id step = k /\ k ∉ completed.
Proof.
  unfold remaining_steps. rewrite list_elem_of_fmap. split.
  - intros [step [-> H]]. apply list_elem_of_filter in H as [H1 H2]. eauto.
  - intros [step [H1 [<- H2]]]. exists step. split; [reflexivity|].
    apply list_elem_of_filter. auto.
Qed.

Lemma next_batch_executable definition st step :
  step ∈ next_batch definition st ->
  step ∈ executable_steps definition (completed_steps st).
Proof. apply py_slice_to_subseteq. Qed.

(** The coroutines of a batch only read [step_results]: [gather] hands the
    dictionary on as it received it, and every step of the batch is
    prepared against that same dictionary. *)
Lemma gather_snapshot self context batch st :
  gather self context batch st =
  let '(outs, w') :=
    gather_on_snapshot self context (step_results st) batch (world st) in
  (outs, mkLoop (completed_steps st) (step_results st) (result st) w').
Proof.
  revert st. induction batch as [|step rest IH]; intros st.
  - now destruct st.
  - cbn [gather gather_on_snapshot].
    destruct (_execute_step self step context (step_results st) (world st)) as [o w1].
    rewrite IH. cbn [step_results world completed_steps result].
    now destruct (gather_on_snapshot self context (step_results st) rest w1).
Qed.

(** A round that does not raise dispatched the first [max_concurrent]
    executable steps and then recorded their outcomes. *)
Lemma loop_body_continue self definition context st st' :
  loop_body self definition context st = Continue st' ->
  exists outs w',
    gather_on_snapshot self context (step_results st) (next_batch definition st)
      (world st) = (outs, w') /\
    st' = fold_left record_outcome (zip (next_batch definition st) outs)
            (mkLoop (completed_steps st) (step_results st) (result st) w').
Proof.
  unfold loop_body.
  destruct (executable_steps definition (completed_steps st)) as [|e es] eqn:Hexe;
    [discriminate|].
  destruct (next_batch definition st) as [|b bs] eqn:Hb.
  - intros [= <-]. exists [], (world st). split; [reflexivity | now destruct st].
  - rewrite gather_snapshot.
    destruct (gather_on_snapshot self context (step_results st) (b :: bs) (world st))
      as [outs w'] eqn:Hg.
    intros [= <-]. exists outs, w'. split; reflexivity.
Qed.

Lemma loop_body_throw self definition context st :
  executable_steps definition (completed_steps st) = [] ->
  loop_body self definition context st
  = Throw (circular_message (remaining_steps definition (completed_steps st))) st.
Proof. intros H. unfold loop_body. now rewrite H. Qed.

Lemma record_outcome_invariant definition wid st step o :
  step ∈ steps definition ->
  loop_invariant definition wid st ->
  loop_invariant definition wid (record_outcome st (step, o)).
Proof.
  intros Hin (Hkeys & Hids & Hwid & Hres). destruct o as [v|msg].
  - repeat split; cbn [record_outcome completed_steps step_results result];
      try assumption.
    + rewrite elem_of_union, elem_of_singleton, dict_get_set_is_Some, Hkeys. tauto.
    + rewrite elem_of_union, elem_of_singleton, dict_get_set_is_Some, Hkeys. tauto.
    + intros k [->%elem_of_singleton | Hk]%elem_of_union; eauto.
  - repeat split; cbn [record_outcome completed_steps step_results result];
      try assumption; apply Hkeys.
Qed.

Lemma fold_record_invariant definition wid items st :
  (forall step o, (step, o) ∈ items -> step ∈ steps definition) ->
  loop_invariant definition wid st ->
  loop_invariant definition wid (fold_left record_outcome items st).
Proof.
  revert st. induction items as [|[step o] items IH]; intros st Hin Hinv; [exact Hinv|].
  cbn [fold_left]. apply IH.
  - intros step' o' H. eapply Hin. right. exact H.
  - apply record_outcome_invariant; [|exact Hinv]. eapply Hin. left.
Qed.

Lemma loop_body_invariant self definition context wid st st' :
  loop_body self definition context st = Continue st' ->
  loop_invariant definition wid st ->
  loop_invariant definition wid st'.
Proof.
  intros Hbody Hinv. apply loop_body_continue in Hbody as (outs & w' & _ & ->).
  apply fold_record_invariant.
  - intros step o H%elem_of_zip_l.
    apply next_batch_executable in H. now apply executable_in_definition in H.
  - exact Hinv.
Qed.

Lemma initial_loop_invariant definition wid (w : World) :
  loop_invariant definition wid (initial_loop wid w).
Proof.
  repeat split; cbn; try reflexivity.
  - intros H. now apply not_elem_of_empty in H.
  - intros [x H]. discriminate.
  - intros k H. now apply not_elem_of_empty in H.
Qed.

Lemma reaches_invariant self definition context wid (w : World) n st :
  reaches self definition context (initial_loop wid w) n st ->
  loop_invariant definition wid st.
Proof.
  induction 1 as [|n st st' _ IH _ Hbody].
  - apply initial_loop_invariant.
  - eapply loop_body_invariant; eassumption.
Qed.

Lemma while_loop_unfold fuel self definition context st :
  while_loop (S fuel) self definition context st =
  if (size (completed_steps st) <? length (steps definition))%nat
  then match loop_body self definition context st with
       | Continue st' => while_loop fuel self definition context st'
       | Throw msg st' => Some (Throw msg st')
       end
  else Some (Continue st).
Proof. reflexivity. Qed.

(** Fuel spent on the rounds already made is fuel well spent. *)
Lemma while_loop_reaches self definition context st0 n st :
  reaches self definition context st0 n st ->
  forall fuel,
    while_loop (n + fuel) self definition context st0
    = while_loop fuel self definition context st.
Proof.
  induction 1 as [|n st st' _ IH Hcond Hbody]; intros fuel; [reflexivity|].
  replace (S n + fuel)%nat with (n + S fuel)%nat by lia.
  rewrite IH, while_loop_unfold, Hbody.
  now apply Nat.ltb_lt in Hcond as ->.
Qed.

Lemma size_list_to_set_le (l : list string) :
  (size (list_to_set l : gset string) <= length l)%nat.
Proof.
  induction l as [|x l IH]; cbn [list_to_set length].
  - now rewrite size_empty.
  - rewrite size_union_alt, size_singleton.
    pose proof (subseteq_size (list_to_set l ∖ {[x]} : gset string) (list_to_set l)
                  (subseteq_difference_l _ _ _ (reflexivity _))) as Hd.
    lia.
Qed.

(** While a step of the definition is incomplete the loop condition holds. *)
Lemma incomplete_step_condition definition wid st :
  loop_invariant definition wid st ->
  (exists step, step ∈ steps definition /\ id step ∉ completed_steps st) ->
  (size (completed_steps st) < length (steps definition))%nat.
Proof.
  intros (_ & Hids & _) (step & Hin & Hnot).
  pose (ids := list_to_set (id <$> steps definition) : gset string).
  assert (completed_steps st ⊂ ids) as Hsub.
  { split.
    - intros k Hk. destruct (Hids k Hk) as (s' & Hs' & <-).
      apply elem_of_list_to_set, list_elem_of_fmap. eauto.
    - intros Hle. apply Hnot, Hle, elem_of_list_to_set, list_elem_of_fmap. eauto. }
  apply subset_size in Hsub.
  pose proof (size_list_to_set_le (id <$> steps definition)) as Hle.
  rewrite length_fmap in Hle. unfold ids in Hsub. lia.
Qed.

Lemma reaches_prepend self definition context st0 st1 n st :
  (size (completed_steps st0) < length (steps definition))%nat ->
  loop_body self definition context st0 = Continue st1 ->
  reaches self definition context st1 n st ->
  reaches self definition context st0 (S n) st.
Proof.
  intros Hcond Hbody. induction 1 as [|n st st' _ IH Hc Hb].
  - eapply reaches_round; [apply reaches_start | exact Hcond | exact Hbody].
  - eapply reaches_round; [exact IH | exact Hc | exact Hb].
Qed.

(** A loop that ends has made some rounds and then either found its
    condition false or raised in the next round. *)
Lemma while_loop_exit fuel self definition context st0 exit :
  while_loop fuel self definition context st0 = Some exit ->
  exists n st,
    reaches self definition context st0 n st /\
    (exit = Continue st \/ exists msg, exit = Throw msg st).
Proof.
  revert st0. induction fuel as [|fuel IH]; intros st0.
  - cbn [while_loop].
    destruct (size (completed_steps st0) <? length (steps definition))%nat;
      [discriminate|].
    intros [= <-]. exists O, st0. split; [apply reaches_start | now left].
  - rewrite while_loop_unfold.
    destruct (size (completed_steps st0) <? length (steps definition))%nat eqn:Hc.
    + apply Nat.ltb_lt in Hc.
      destruct (loop_body self definition context st0) as [st1|msg st1] eqn:Hb.
      * intros H. destruct (IH _ H) as (n & st & Hreach & Hexit).
        exists (S n), st. split; [|exact Hexit].
        eapply reaches_prepend; eassumption.
      * intros [= <-]. exists O, st0. split; [apply reaches_start|].
        right. exists msg. f_equal.
        unfold loop_body in Hb.
        destruct (executable_steps definition (completed_steps st0)).
        -- now inversion Hb.
        -- destruct (next_batch definition st0); [discriminate|].
           now destruct (gather self context _ st0).
    + intros [= <-]. exists O, st0. split; [apply reaches_start | now left].
Qed.

(** Recording outcomes adds keys for recorded steps only. *)
Lemma fold_record_keys items st k :
  is_Some (dict_get k (step_results (fold_left record_outcome items st))) ->
  is_Some (dict_get k (step_results st)) \/
  exists step o, (step, o) ∈ items /\ id step = k.
Proof.
  revert st. induction items as [|[step o] items IH]; intros st H; [now left|].
  cbn [fold_left] in H. apply IH in H as [H | (step' & o' & Hin & Hid)].
  - destruct o as [v|msg]; cbn [record_outcome step_results] in H.
    + apply dict_get_set_is_Some in H as [-> | H]; [|now left].
      right. exists step, (Returned v). split; [left | reflexivity].
    + now left.
  - right. exists step', o'. split; [right; exact Hin | exact Hid].
Qed.

(** Every visible result was produced by a step of the batch of an
    earlier round. *)
Lemma visible_results_are_earlier self definition context wid (w : World) n st k :
  reaches self definition context (initial_loop wid w) n st ->
  is_Some (dict_get k (step_results st)) ->
  exists m st_m step,
    (m < n)%nat /\
    reaches self definition context (initial_loop wid w) m st_m /\
    step ∈ next_batch definition st_m /\ id step = k.
Proof.
  induction 1 as [|n st st' Hreach IH _ Hbody]; intros Hk.
  - destruct Hk as [x Hx]. discriminate.
  - apply loop_body_continue in Hbody as (outs & w' & _ & ->).
    apply fold_record_keys in Hk as [Hk | (step & o & Hin & Hid)].
    + destruct (IH Hk) as (m & st_m & step & Hlt & Hm & Hin & Hid).
      exists m, st_m, step. repeat split; try assumption. lia.
    + exists n, st, step. repeat split; try assumption; [lia|].
      eapply elem_of_zip_l. exact Hin.
Qed.

Lemma while_loop_done fuel self definition context st :
  (length (steps definition) <= size (completed_steps st))%nat ->
  while_loop fuel self definition context st = Some (Continue st).
Proof.
  intros H. apply Nat.ltb_ge in H.
  destruct fuel; cbn [while_loop]; now rewrite H.
Qed.

(** A run whose loop finds its condition false after [n] rounds returns
    with any fuel from [n] on. *)
Lemma run_workflow_reaches new_context self wid (context : option Ctx) (w : World)
    definition n st :
  workflows self !! wid = Some definition ->
  reaches (store_active self wid (initial_result wid)) definition
          (default new_context context) (initial_loop wid w) n st ->
  (length (steps definition) <= size (completed_steps st))%nat ->
  forall fuel,
    run_workflow (n + fuel) new_context self wid context w
    = Some (conclude (store_active self wid (initial_result wid)) wid (Continue st)).
Proof.
  intros Hwf Hreach Hdone fuel. unfold run_workflow. rewrite Hwf.
  rewrite (while_loop_reaches _ _ _ _ _ _ Hreach).
  now rewrite while_loop_done by exact Hdone.
Qed.

End LoopFacts.

(** ** What the scheduling loop guarantees *)

Section LoopProperties.
Context {World Ctx : Type}.
Implicit Types (self : AgentOrchestrator World Ctx) (st : LoopState World)
               (definition : WorkflowDefinition) (context : option Ctx).

(** C6.  When a run of a created workflow is at the top of its loop after
    [n] rounds with a step still incomplete and no executable step (a
    cycle, a self-dependency, a dependency id that no step has),
    [run_workflow] returns after that round: [n + 1] rounds of fuel are
    enough.  The result it returns has state FAILED and carries, under
    the key "workflow", the message that lists the ids of exactly the
    steps that are not completed. *)
Theorem deadlock_fails_workflow new_context self wid context (w : World)
    definition n st :
  workflows self !! wid = Some definition ->
  reaches (store_active self wid (initial_result wid)) definition
          (default new_context context) (initial_loop wid w) n st ->
  (exists step, step ∈ steps definition /\ id step ∉ completed_steps st) ->
  executable_steps definition (completed_steps st) = [] ->
  exists r self',
    (forall fuel, (n < fuel)%nat ->
       run_workflow fuel new_context self wid context w
       = Some (Returns r, self', world st)) /\
    state r = FAILED /\
    dict_get "workflow" (errors r)
    = Some ("Circular dependency detected in steps: "
            +:+ py_repr (VList (map VStr (remaining_steps definition (completed_steps st))))) /\
    (forall k, k ∈ remaining_steps definition (completed_steps st) <->
               exists step, step ∈ steps definition /\ id step = k /\
                            k ∉ completed_steps st).
Proof.
  intros Hwf Hreach Hincomplete Hempty.
  pose proof (reaches_invariant _ _ _ _ _ _ _ Hreach) as Hinv.
  pose proof (incomplete_step_condition _ _ _ Hinv Hincomplete) as Hcond.
  eexists _, _. split; [|split; [|split]].
  - intros fuel Hfuel. unfold run_workflow. rewrite Hwf.
    replace fuel with (n + S (fuel - S n))%nat by lia.
    rewrite (while_loop_reaches _ _ _ _ _ _ Hreach), while_loop_unfold.
    apply Nat.ltb_lt in Hcond as ->.
    rewrite loop_body_throw by exact Hempty. reflexivity.
  - reflexivity.
  - cbn [errors set_error]. apply dict_get_set_eq.
  - intros k. apply remaining_steps_spec.
Qed.

(** C7.  At the top of any round of a run, no step of the batch about to
    be dispatched has an entry in [step_results]; every entry there was
    produced by a step dispatched in an earlier round; the batch runs as if
    every step were prepared against that one dictionary, which [gather]
    hands back unchanged; and the round is exactly that: it raises on an
    empty frontier, and otherwise its next state is the state at the top
    with the outcomes of that batch recorded after the join, so no outcome
    of the batch is written before every step of the batch has run. *)
Theorem batch_isolation self definition (ctx : Ctx) wid (w : World) n st :
  reaches self definition ctx (initial_loop wid w) n st ->
  (forall step, step ∈ next_batch definition st ->
                dict_get (id step) (step_results st) = None) /\
  (forall k, is_Some (dict_get k (step_results st)) ->
             exists m st_m step,
               (m < n)%nat /\
               reaches self definition ctx (initial_loop wid w) m st_m /\
               step ∈ next_batch definition st_m /\ id step = k) /\
  (exists outs w',
      gather self ctx (next_batch definition st) st
      = (outs, mkLoop (completed_steps st) (step_results st) (result st) w') /\
      gather_on_snapshot self ctx (step_results st) (next_batch definition st) (world st)
      = (outs, w') /\
      loop_body self definition ctx st
      = match executable_steps definition (completed_steps st) with
        | [] =>
            Throw (circular_message (remaining_steps definition (completed_steps st))) st
        | _ :: _ =>
            Continue (fold_left record_outcome (zip (next_batch definition st) outs)
                        (mkLoop (completed_steps st) (step_results st) (result st) w'))
        end).
Proof.
  intros Hreach.
  pose proof (reaches_invariant _ _ _ _ _ _ _ Hreach) as (Hkeys & _).
  split; [|split].
  - intros step Hin.
    apply next_batch_executable, executable_in_definition in Hin as [_ Hnot].
    destruct (dict_get (id step) (step_results st)) eqn:E; [|reflexivity].
    elim Hnot. apply Hkeys. eauto.
  - intros k Hk. eapply visible_results_are_earlier; eassumption.
  - unfold loop_body. rewrite gather_snapshot.
    destruct (gather_on_snapshot self ctx (step_results st)
                (next_batch definition st) (world st)) as [outs w'] eqn:Hsnap.
    exists outs, w'. split; [reflexivity|]. split; [reflexivity|].
    destruct (executable_steps definition (completed_steps st)) as [|e es];
      [reflexivity|].
    destruct (next_batch definition st) as [|b bs]; [|reflexivity].
    cbn [gather_on_snapshot] in Hsnap. injection Hsnap as <- <-.
    now destruct st.
Qed.

(** C4, as the code has it.  An exception that escapes the loop of a
    created workflow is caught: [run_workflow] returns a result with state
    FAILED and the message under the key "workflow", it does not raise,
    and the entry of the workflow is gone from the table of active
    workflows when it returns. *)
Theorem loop_exception_is_returned fuel new_context self wid context (w : World)
    definition msg st :
  workflows self !! wid = Some definition ->
  while_loop fuel (store_active self wid (initial_result wid)) definition
             (default new_context context) (initial_loop wid w)
  = Some (Throw msg st) ->
  exists r self',
    run_workflow fuel new_context self wid context w
    = Some (Returns r, self', world st) /\
    state r = FAILED /\
    dict_get "workflow" (errors r) = Some msg /\
    active_workflows self' !! wid = None.
Proof.
  intros Hwf Hloop. unfold run_workflow. rewrite Hwf, Hloop.
  eexists _, _. split; [reflexivity|]. split; [reflexivity|]. split.
  - cbn [errors set_error]. apply dict_get_set_eq.
  - cbn [active_workflows]. apply lookup_delete_eq.
Qed.

(** C5, as the code has it.  For a workflow id that was never created
    [run_workflow] raises at once and leaves the orchestrator as it was,
    so no result is stored.  For a created workflow it never raises:
    when it ends it returns the result of this workflow with state
    COMPLETED or FAILED, and the entry is gone from the table. *)
Theorem run_workflow_caller_view fuel new_context self wid context (w : World) :
  match workflows self !! wid with
  | None =>
      run_workflow fuel new_context self wid context w
      = Some (Raises ("Workflow " +:+ uuid_str wid +:+ " not found"), self, w)
  | Some definition =>
      match run_workflow fuel new_context self wid context w with
      | None => True
      | Some (out, self', w') =>
          exists r, out = Returns r /\
                    workflow_id r = wid /\
                    (state r = COMPLETED \/ state r = FAILED) /\
                    active_workflows self' !! wid = None
      end
  end.
Proof.
  unfold run_workflow.
  destruct (workflows self !! wid) as [definition|]; [|reflexivity].
  destruct (while_loop _ _ _ _ _) as [exit|] eqn:Hloop; [|exact I].
  apply while_loop_exit in Hloop as (n & st & Hreach & Hexit).
  apply reaches_invariant in Hreach as (_ & _ & Hwid & _).
  destruct Hexit as [-> | [msg ->]]; cbn [conclude];
    eexists; (split; [reflexivity|]); cbn [workflow_id set_state set_results set_error state];
    (split; [exact Hwid|]); (split; [auto|]); apply lookup_delete_eq.
Qed.

End LoopProperties.

(** ** The concrete workflows *)

Import Scenarios.

(** C9.  Scenario A: with the echo agent registered, the run of the
    two-step workflow returns the results a = hello and b = got hello, no
    errors and state COMPLETED, after two rounds of the loop. *)
Theorem scenario_linear_data_flow (fuel : nat) :
  run_workflow (2 + fuel) tt (orchestrator echo_registry linear) wid None tt
  = Some (Returns (mkResult wid COMPLETED
                            [("a", VStr "hello"); ("b", VStr "got hello")] []),
          orchestrator echo_registry linear, tt).
Proof.
  rewrite (run_workflow_reaches tt _ wid None tt linear 2
             (mkLoop {[ "b"; "a" ]} [("a", VStr "hello"); ("b", VStr "got hello")]
                     (initial_result wid) tt)).
  - vm_compute. reflexivity.
  - reflexivity.
  - eapply reaches_round with
      (st := mkLoop {[ "a" ]} [("a", VStr "hello")] (initial_result wid) tt);
      [eapply reaches_round; [apply reaches_start | |] | |];
      first [ vm_compute; lia | vm_compute; reflexivity ].
  - vm_compute. lia.
Qed.

(** The state of the loop of the ghost workflow after its first round. *)
Lemma ghost_first_round :
  loop_body (store_active (orchestrator (World:=unit) (Ctx:=unit) ∅ ghost) wid
                          (initial_result wid))
            ghost tt (initial_loop wid tt)
  = Continue (mkLoop ∅ [] (mkResult wid FAILED [] [("s", "Agent ghost not found")]) tt).
Proof. vm_compute. reflexivity. Qed.

Lemma ghost_later_rounds :
  loop_body (store_active (orchestrator (World:=unit) (Ctx:=unit) ∅ ghost) wid
                          (initial_result wid))
            ghost tt
            (mkLoop ∅ [] (mkResult wid FAILED [] [("s", "Agent ghost not found")]) tt)
  = Continue (mkLoop ∅ [] (mkResult wid FAILED [] [("s", "Agent ghost not found")]) tt).
Proof. vm_compute. reflexivity. Qed.

Lemma ghost_loop_spins (fuel : nat) :
  while_loop fuel
             (store_active (orchestrator (World:=unit) (Ctx:=unit) ∅ ghost) wid
                           (initial_result wid))
             ghost tt
             (mkLoop ∅ [] (mkResult wid FAILED [] [("s", "Agent ghost not found")]) tt)
  = None.
Proof.
  induction fuel as [|fuel IH]; [reflexivity|].
  rewrite while_loop_unfold, ghost_later_rounds. exact IH.
Qed.

Lemma ghost_acyclic : acyclic ghost.
Proof.
  exists (steps ghost). split; [reflexivity|].
  intros i step dep Hi Hdep. destruct i as [|[|i]]; simpl in Hi; try discriminate.
  injection Hi as <-. simpl in Hdep. now apply elem_of_nil in Hdep.
Qed.

(** C1 on the code.  The one-step workflow whose step names an agent that
    is not registered is acyclic and has no dependency at all, yet its run
    never ends: whatever the fuel, the loop is still running. *)
Theorem ghost_run_never_ends :
  acyclic ghost /\
  forall fuel,
    run_workflow fuel tt (orchestrator (World:=unit) (Ctx:=unit) ∅ ghost) wid None tt
    = None.
Proof.
  split; [exact ghost_acyclic|].
  intros [|fuel]; [reflexivity|].
  unfold run_workflow.
  replace (workflows (orchestrator ∅ ghost) !! wid) with (Some ghost) by reflexivity.
  cbn [default]. rewrite while_loop_unfold, ghost_first_round.
  replace (size (completed_steps (initial_loop wid tt)) <? length (steps ghost))%nat
    with true by reflexivity.
  now rewrite ghost_loop_spins.
Qed.

(** C2 on the code.  The round in which the step of the ghost workflow
    fails records its message and sets the state to FAILED, but leaves the
    step out of [completed_steps]; the step is in the batch of the next
    round again, and that round ends in the same state. *)
Theorem failed_step_is_dispatched_again :
  let self := store_active (orchestrator (World:=unit) (Ctx:=unit) ∅ ghost) wid
                           (initial_result wid) in
  exists st1,
    loop_body self ghost tt (initial_loop wid tt) = Continue st1 /\
    errors (result st1) = [("s", "Agent ghost not found")] /\
    state (result st1) = FAILED /\
    ("s" ∉ completed_steps st1) /\
    next_batch ghost st1 = steps ghost /\
    loop_body self ghost tt st1 = Continue st1.
Proof.
  intros self. eexists. split; [apply ghost_first_round|].
  split; [reflexivity|]. split; [reflexivity|].
  split; [apply not_elem_of_empty|].
  split; [reflexivity | apply ghost_later_rounds].
Qed.

(** C3 on the code.  The step of the retried workflow fails in the first
    round, which sets the state to FAILED, and succeeds in the second; the
    result that [run_workflow] returns keeps the error of the first round
    and has state COMPLETED. *)
Theorem failed_state_is_overwritten (fuel : nat) :
  (exists st1,
      loop_body (store_active (orchestrator flaky_registry retried) wid
                              (initial_result wid))
                retried tt (initial_loop wid 0%nat) = Continue st1 /\
      state (result st1) = FAILED) /\
  run_workflow (2 + fuel) tt (orchestrator flaky_registry retried) wid None 0%nat
  = Some (Returns (mkResult wid COMPLETED [("s", VStr "hello")]
                            [("s", "connection reset")]),
          orchestrator flaky_registry retried, 2%nat).
Proof.
  split.
  - exists (mkLoop ∅ [] (mkResult wid FAILED [] [("s", "connection reset")]) 1%nat).
    split; [vm_compute; reflexivity | reflexivity].
  - rewrite (run_workflow_reaches tt _ wid None 0%nat retried 2
               (mkLoop {[ "s" ]} [("s", VStr "hello")]
                       (mkResult wid FAILED [] [("s", "connection reset")]) 2%nat)).
    + vm_compute. reflexivity.
    + reflexivity.
    + eapply reaches_round with
        (st := mkLoop ∅ [] (mkResult wid FAILED [] [("s", "connection reset")]) 1%nat);
        [eapply reaches_round; [apply reaches_start | |] | |];
        first [ vm_compute; lia | vm_compute; reflexivity ].
    + vm_compute. lia.
Qed.

(** The exception of the cyclic workflow escapes the loop in the first
    round. *)
Lemma cycle_loop_throws (fuel : nat) :
  while_loop (S fuel)
             (store_active (orchestrator echo_registry cycle) wid (initial_result wid))
             cycle tt (initial_loop wid tt)
  = Some (Throw "Circular dependency detected in steps: ['A', 'B']" (initial_loop wid tt)).
Proof.
  rewrite while_loop_unfold.
  replace (loop_body _ cycle tt (initial_loop wid tt))
    with (Throw (World:=unit) "Circular dependency detected in steps: ['A', 'B']"
                (initial_loop wid tt))
    by (vm_compute; reflexivity).
  reflexivity.
Qed.

(** C4 as stated fails: the loop of the cyclic workflow raises, and no run
    of it ends by raising to the caller with the result still in the table
    of active workflows. *)
Lemma cycle_exception_not_reraised :
  (exists msg st,
      while_loop 1 (store_active (orchestrator echo_registry cycle) wid
                                 (initial_result wid))
                 cycle tt (initial_loop wid tt) = Some (Throw msg st)) /\
  ~ (exists fuel msg self' w',
        run_workflow fuel tt (orchestrator echo_registry cycle) wid None tt
        = Some (Raises msg, self', w') /\
        is_Some (active_workflows self' !! wid)).
Proof.
  split.
  - eexists _, _. apply cycle_loop_throws.
  - intros (fuel & msg & self' & w' & Hrun & _).
    destruct fuel as [|fuel]; [discriminate Hrun|].
    unfold run_workflow in Hrun.
    replace (workflows (orchestrator echo_registry cycle) !! wid)
      with (Some cycle) in Hrun by reflexivity.
    cbn [default] in Hrun. rewrite cycle_loop_throws in Hrun. discriminate Hrun.
Qed.

Lemma loop_exception_is_returned_cycle :
  exists r self',
    run_workflow 1 tt (orchestrator echo_registry cycle) wid None tt
    = Some (Returns r, self', tt) /\
    state r = FAILED /\
    dict_get "workflow" (errors r)
    = Some "Circular dependency detected in steps: ['A', 'B']" /\
    active_workflows self' !! wid = None.
Proof.
  apply (loop_exception_is_returned 1 tt (orchestrator echo_registry cycle)
           wid None tt cycle
           "Circular dependency detected in steps: ['A', 'B']" (initial_loop wid tt)).
  - reflexivity.
  - apply (cycle_loop_throws 0).
Defined.

(** C5 as stated fails: for an id that was never created the caller gets
    an exception and no result, and the orchestrator that comes back has
    nothing stored under that id. *)
Lemma unknown_workflow_bare_exception :
  run_workflow 1 tt (orchestrator echo_registry linear) 9%N None tt
  = Some (Raises "Workflow 00000000-0000-0000-0000-000000000009 not found",
          orchestrator echo_registry linear, tt) /\
  active_workflows (orchestrator echo_registry linear) !! 9%N = None.
Proof. split; reflexivity. Qed.

(** The cyclic workflow: a step A that depends on B and a step B that depends on A. *)
Lemma deadlock_fails_workflow_cycle :
  exists r self',
    (forall fuel, (0 < fuel)%nat ->
       run_workflow fuel tt (orchestrator echo_registry cycle) wid None tt
       = Some (Returns r, self', tt)) /\
    state r = FAILED /\
    dict_get "workflow" (errors r)
    = Some "Circular dependency detected in steps: ['A', 'B']".
Proof.
  destruct (deadlock_fails_workflow tt (orchestrator echo_registry cycle)
              wid None tt cycle 0 (initial_loop wid tt))
    as (r & self' & Hrun & Hstate & Herr & _).
  - reflexivity.
  - apply reaches_start.
  - exists (step "A" "echo" (VStr "x") ["B"]). split; [left | apply not_elem_of_empty].
  - vm_compute. reflexivity.
  - exists r, self'. split; [exact Hrun|]. split; [exact Hstate | exact Herr].
Defined.

(** The linear workflow at the top of its second round: the result of a is
    visible to b, which was not in the batch of a, and the round records
    what b made of it. *)
Lemma batch_isolation_linear :
  let st1 := mkLoop {[ "a" ]} [("a", VStr "hello")] (initial_result wid) tt in
  (forall step, step ∈ next_batch linear st1 ->
                dict_get (id step) (step_results st1) = None) /\
  (exists outs w',
      gather (orchestrator echo_registry linear) tt (next_batch linear st1) st1
      = (outs, mkLoop (completed_steps st1) (step_results st1) (result st1) w') /\
      outs = [Returned (VStr "got hello")] /\
      loop_body (orchestrator echo_registry linear) linear tt st1
      = Continue (fold_left record_outcome (zip (next_batch linear st1) outs)
                    (mkLoop (completed_steps st1) (step_results st1) (result st1) w'))).
Proof.
  intros st1.
  destruct (batch_isolation (orchestrator echo_registry linear) linear tt wid tt 1 st1)
    as (Hnone & _ & outs & w' & Hgather & Hsnap & Hround).
  - eapply reaches_round; [apply reaches_start | vm_compute; lia | vm_compute; reflexivity].
  - split; [exact Hnone|]. exists outs, w'. split; [exact Hgather|].
    split; [|exact Hround].
    vm_compute in Hsnap. now injection Hsnap as <- _.
Defined.

(** Batch isolation in test form: with the dependency b waits for a and
    sees its result; without it the two share a batch and the placeholder
    stays as it is. *)
Example siblings_do_not_see_each_other :
  run_workflow 2 tt (orchestrator echo_registry siblings) wid None tt
  = Some (Returns (mkResult wid COMPLETED
                            [("a", VStr "hello"); ("b", VStr "got {step.a}")] []),
          orchestrator echo_registry siblings, tt).
Proof. vm_compute. reflexivity. Qed.

Example prepare_scenario :
  _prepare_task (VStr "got {step.a}") [("a", VStr "hello")] = VStr "got hello".
Proof. reflexivity. Qed.

Example prepare_twice :
  _prepare_task (VStr "{step.a}{step.a}-{step.b}") [("a", VInt 7); ("b", VList [VStr "x"; VNone])]
  = VStr "77-['x', None]".
Proof. reflexivity. Qed.

Example repr_plain : PyStr.repr "a" = "'a'".
Proof. reflexivity. Qed.

Example repr_with_quote : PyStr.repr "it's" = String PyStr.dquote ("it's" +:+ String PyStr.dquote "").
Proof. reflexivity. Qed.

Example replace_overlapping : PyStr.replace "aaaa" "aa" "b" = "bb".
Proof. reflexivity. Qed.

Example replace_empty_pattern : PyStr.replace "abc" "" "-" = "-a-b-c-".
Proof. reflexivity. Qed.

Example str_of_negative : py_str (VInt (-12)) = "-12".
Proof. reflexivity. Qed.

(* ===================================================================== *)
(** * Further properties of the orchestrator *)
(* ===================================================================== *)

(** ** The registry of agents and the table of active workflows *)

Section InterfaceProperties.
Context {World Ctx : Type}.
Implicit Types (self : AgentOrchestrator World Ctx) (agent : Agent World Ctx)
               (definition : WorkflowDefinition) (context : option Ctx).

(** X1.  Looking a name up after [register_agent] gives the agent just
    registered for that name, whatever was there before, and what was there
    for every other name; the workflows and the active table are not
    touched. *)
Theorem register_agent_lookup self name agent name' :
  get_agent (register_agent self name agent) name'
  = (if decide (name = name') then Some agent else get_agent self name') /\
  workflows (register_agent self name agent) = workflows self /\
  active_workflows (register_agent self name agent) = active_workflows self.
Proof.
  split; [|split; reflexivity].
  unfold get_agent, register_agent. cbn [agents]. apply lookup_insert.
Qed.

(** X2.  After [unregister_agent] the name is not registered and every
    other name is as before; for a name that is not registered the call
    changes nothing; and registering a new name and unregistering it gives
    the registry back. *)
Theorem unregister_agent_lookup self name agent name' :
  get_agent (unregister_agent self name) name'
  = (if decide (name = name') then None else get_agent self name') /\
  (get_agent self name = None -> unregister_agent self name = self) /\
  (get_agent self name = None ->
   agents (unregister_agent (register_agent self name agent) name) = agents self).
Proof.
  unfold get_agent, unregister_agent. split; [|split].
  - destruct (agents self !! name) eqn:E; cbn [agents].
    + apply lookup_delete.
    + destruct (decide (name = name')) as [<-|_]; [exact E | reflexivity].
  - now intros ->.
  - intros Hnone. unfold register_agent. cbn [agents].
    rewrite lookup_insert_eq. cbn [agents]. now apply delete_insert_id.
Qed.

(** X3.  [list_agents] lists exactly the registered names, each once, so
    its length is the number of registered agents. *)
Theorem list_agents_registered self :
  (forall name, name ∈ list_agents self <-> is_Some (get_agent self name)) /\
  NoDup (list_agents self) /\
  length (list_agents self) = size (agents self).
Proof.
  unfold list_agents, get_agent. split; [|split].
  - intros name. rewrite list_elem_of_fmap. split.
    + intros [[k a] [-> H]]. apply elem_of_map_to_list in H. cbn. eauto.
    + intros [a H]. exists (name, a). split; [reflexivity|].
      now apply elem_of_map_to_list.
  - apply NoDup_fst_map_to_list.
  - rewrite length_fmap. apply length_map_to_list.
Qed.

(** X4.  [create_workflow] returns the identity it drew and stores the
    definition under it; every other identity, the agents and the active
    table are as before. *)
Theorem create_workflow_lookup self fresh definition wid' :
  fst (create_workflow self fresh definition) = fresh /\
  workflows (snd (create_workflow self fresh definition)) !! wid'
  = (if decide (fresh = wid') then Some definition else workflows self !! wid') /\
  agents (snd (create_workflow self fresh definition)) = agents self /\
  active_workflows (snd (create_workflow self fresh definition)) = active_workflows self.
Proof.
  split; [reflexivity|]. split; [|split; reflexivity].
  cbn [create_workflow snd workflows]. apply lookup_insert.
Qed.

(** X5.  [cancel_workflow] answers True exactly when the workflow is in the
    active table; afterwards the workflow is not in the table, the other
    entries are as before, the object that was stored has state CANCELLED,
    and cancelling a second time answers False and changes nothing. *)
Theorem cancel_workflow_effect self wid :
  let '(cancelled, self', object) := cancel_workflow self wid in
  (cancelled = true <-> is_Some (get_workflow_status self wid)) /\
  get_workflow_status self' wid = None /\
  (forall wid', wid' <> wid ->
                get_workflow_status self' wid' = get_workflow_status self wid') /\
  object = (fun r => set_state r CANCELLED) <$> get_workflow_status self wid /\
  agents self' = agents self /\
  workflows self' = workflows self /\
  cancel_workflow self' wid = (false, self', None).
Proof.
  unfold cancel_workflow, get_workflow_status.
  destruct (active_workflows self !! wid) as [r|] eqn:E.
  - cbn [active_workflows agents workflows]. rewrite lookup_delete_eq.
    repeat split; eauto.
    intros wid' Hne. now apply lookup_delete_ne.
  - rewrite E. repeat split; try assumption; try reflexivity.
    + discriminate.
    + intros [x Hx]. discriminate.
Qed.

(** Whenever [run_workflow] ends, the registry and the workflows are the
    ones it started with. *)
Lemma run_workflow_keeps_registry fuel new_context self wid context (w : World)
    out self' w' :
  run_workflow fuel new_context self wid context w = Some (out, self', w') ->
  agents self' = agents self /\ workflows self' = workflows self.
Proof.
  unfold run_workflow. destruct (workflows self !! wid) as [definition|].
  - destruct (while_loop _ _ _ _ _) as [exit|]; [|discriminate].
    unfold conclude.
    destruct (match exit with Continue st => _ | Throw msg st => _ end) as [r w1].
    intros [= <- <- <-]. split; reflexivity.
  - intros [= <- <- <-]. split; reflexivity.
Qed.

(** Whenever [run_workflow] ends for a created workflow, it returns a result
    of that workflow and the workflow has no entry in the active table. *)
Lemma run_workflow_returns_result fuel new_context self wid context (w : World)
    definition out self' w' :
  workflows self !! wid = Some definition ->
  run_workflow fuel new_context self wid context w = Some (out, self', w') ->
  active_workflows self' !! wid = None /\
  exists r, out = Returns r /\ workflow_id r = wid.
Proof.
  intros Hwf. unfold run_workflow. rewrite Hwf.
  destruct (while_loop _ _ _ _ _) as [exit|] eqn:Hloop; [|discriminate].
  apply while_loop_exit in Hloop as (n & st & Hreach & Hexit).
  apply reaches_invariant in Hreach as (_ & _ & Hwid & _).
  unfold conclude.
  destruct Hexit as [-> | [msg ->]]; intros [= <- <- <-];
    (split; [apply lookup_delete_eq|]); eexists; (split; [reflexivity|]); exact Hwid.
Qed.

(** X6.  Whenever [run_workflow] ends, for a created workflow or not, the
    agents and the workflows of the orchestrator are unchanged and so is
    every entry of the active table under another identity; for a created
    workflow the table is the one before without this workflow, so an entry
    that was there under the same identity is gone as well. *)
Theorem run_workflow_frame fuel new_context self wid context (w : World) :
  match run_workflow fuel new_context self wid context w with
  | None => True
  | Some (out, self', w') =>
      agents self' = agents self /\
      workflows self' = workflows self /\
      (forall wid', wid' <> wid ->
                    active_workflows self' !! wid' = active_workflows self !! wid') /\
      (is_Some (workflows self !! wid) ->
       active_workflows self' = delete wid (active_workflows self))
  end.
Proof.
  unfold run_workflow. destruct (workflows self !! wid) as [definition|] eqn:Hwf.
  - destruct (while_loop _ _ _ _ _) as [exit|]; [|exact I].
    unfold conclude.
    destruct (match exit with Continue st => _ | Throw msg st => _ end) as [r w'].
    cbn [store_active agents workflows active_workflows].
    rewrite delete_insert_eq. repeat split.
    intros wid' Hne. now apply lookup_delete_ne.
  - repeat split. intros [x Hx]. discriminate.
Qed.

(** X7.  Once [run_workflow] has ended for a created workflow, the workflow
    cannot be cancelled and has no status any more: [cancel_workflow]
    answers False and leaves the orchestrator as it is. *)
Theorem cancel_after_run fuel new_context self wid context (w : World) out self' w' :
  is_Some (workflows self !! wid) ->
  run_workflow fuel new_context self wid context w = Some (out, self', w') ->
  get_workflow_status self' wid = None /\
  cancel_workflow self' wid = (false, self', None).
Proof.
  intros [definition Hwf] Hrun.
  destruct (run_workflow_returns_result _ _ _ _ _ _ _ _ _ _ Hwf Hrun) as [Hnone _].
  split; [exact Hnone|]. unfold cancel_workflow. now rewrite Hnone.
Qed.

End InterfaceProperties.

(** ** How a run ends *)

Section ExitProperties.
Context {World Ctx : Type}.
Implicit Types (self : AgentOrchestrator World Ctx) (st : LoopState World)
               (definition : WorkflowDefinition) (context : option Ctx).

Lemma loop_body_throw_inv self definition (ctx : Ctx) st msg st' :
  loop_body self definition ctx st = Throw msg st' ->
  st' = st /\
  msg = circular_message (remaining_steps definition (completed_steps st)) /\
  executable_steps definition (completed_steps st) = [].
Proof.
  unfold loop_body.
  destruct (executable_steps definition (completed_steps st)) as [|e es].
  - intros [= <- <-]. repeat split.
  - destruct (next_batch definition st); [discriminate|].
    now destruct (gather self ctx _ st).
Qed.

(** A loop that ends has made some rounds, within its fuel, and then either
    found every step completed or met an empty frontier. *)
Lemma while_loop_exit_cases fuel self definition (ctx : Ctx) st0 exit :
  while_loop fuel self definition ctx st0 = Some exit ->
  exists n st,
    (n <= fuel)%nat /\
    reaches self definition ctx st0 n st /\
    ((exit = Continue st /\
      (length (steps definition) <= size (completed_steps st))%nat) \/
     (exit = Throw (circular_message (remaining_steps definition (completed_steps st))) st /\
      (size (completed_steps st) < length (steps definition))%nat /\
      executable_steps definition (completed_steps st) = [])).
Proof.
  revert st0. induction fuel as [|fuel IH]; intros st0.
  - cbn [while_loop].
    destruct (size (completed_steps st0) <? length (steps definition))%nat eqn:Hc;
      [discriminate|].
    intros [= <-]. exists O, st0. split; [lia|]. split; [apply reaches_start|].
    left. split; [reflexivity|]. now apply Nat.ltb_ge.
  - rewrite while_loop_unfold.
    destruct (size (completed_steps st0) <? length (steps definition))%nat eqn:Hc.
    + apply Nat.ltb_lt in Hc.
      destruct (loop_body self definition ctx st0) as [st1|msg st1] eqn:Hb.
      * intros H. destruct (IH _ H) as (n & st & Hn & Hreach & Hexit).
        exists (S n), st. split; [lia|]. split; [|exact Hexit].
        eapply reaches_prepend; eassumption.
      * intros [= <-]. apply loop_body_throw_inv in Hb as (-> & -> & Hempty).
        exists O, st0. split; [lia|]. split; [apply reaches_start|].
        right. repeat split; assumption.
    + intros [= <-]. exists O, st0. split; [lia|]. split; [apply reaches_start|].
      left. split; [reflexivity|]. now apply Nat.ltb_ge.
Qed.

Lemma size_list_to_set_NoDup (l : list string) :
  size (list_to_set l : gset string) = length l -> NoDup l.
Proof.
  induction l as [|x l IH]; [constructor|].
  cbn [list_to_set length]. rewrite size_union_alt, size_singleton.
  intros Hsize.
  pose proof (size_list_to_set_le l) as Hle.
  pose proof (subseteq_size (list_to_set l ∖ {[x]} : gset string) (list_to_set l)
                (subseteq_difference_l _ _ _ (reflexivity _))) as Hd.
  constructor.
  - intros Hin.
    assert ((list_to_set l ∖ {[x]} : gset string) ⊂ list_to_set l) as Hsub.
    { split; [apply subseteq_difference_l; reflexivity|]. intros Hsup.
      assert (x ∈ (list_to_set l ∖ {[x]} : gset string)) as Hx
          by (apply Hsup, elem_of_list_to_set, Hin).
      apply elem_of_difference in Hx as [_ Hx]. apply Hx. now apply elem_of_singleton. }
    apply subset_size in Hsub. lia.
  - apply IH. lia.
Qed.

(** When the loop finds its condition false, the completed ids are the ids
    of the definition, and no two steps share an id. *)
Lemma completed_all definition wid st :
  loop_invariant definition wid st ->
  (length (steps definition) <= size (completed_steps st))%nat ->
  NoDup (id <$> steps definition) /\
  forall step, step ∈ steps definition -> id step ∈ completed_steps st.
Proof.
  intros (_ & Hids & _) Hsize.
  pose (ids := list_to_set (id <$> steps definition) : gset string).
  assert (completed_steps st ⊆ ids) as Hsub.
  { intros k Hk. destruct (Hids k Hk) as (s' & Hs' & <-).
    apply elem_of_list_to_set, list_elem_of_fmap. eauto. }
  pose proof (size_list_to_set_le (id <$> steps definition)) as Hle.
  rewrite length_fmap in Hle.
  pose proof (subseteq_size _ _ Hsub) as Hle'. fold ids in Hle.
  assert (completed_steps st = ids) as Heq
      by (apply set_subseteq_size_eq; [exact Hsub | lia]).
  split.
  - apply size_list_to_set_NoDup. rewrite length_fmap. fold ids. lia.
  - intros step Hin. rewrite Heq. apply elem_of_list_to_set, list_elem_of_fmap. eauto.
Qed.

(** X8.  A result that [run_workflow] returns with state COMPLETED holds a
    value for the id of every step of the definition and for nothing else,
    and the definition then has no two steps with the same id: a workflow
    with a repeated step id never completes. *)
Theorem completed_result_is_total fuel new_context self wid context (w : World)
    definition r self' w' :
  workflows self !! wid = Some definition ->
  run_workflow fuel new_context self wid context w = Some (Returns r, self', w') ->
  state r = COMPLETED ->
  (forall step, step ∈ steps definition -> is_Some (dict_get (id step) (results r))) /\
  (forall k, is_Some (dict_get k (results r)) ->
             exists step, step ∈ steps definition /\ id step = k) /\
  NoDup (id <$> steps definition).
Proof.
  intros Hwf Hrun Hstate. unfold run_workflow in Hrun. rewrite Hwf in Hrun.
  destruct (while_loop _ _ _ _ _) as [exit|] eqn:Hloop; [|discriminate].
  apply while_loop_exit_cases in Hloop as (n & st & _ & Hreach & Hexit).
  pose proof (reaches_invariant _ _ _ _ _ _ _ Hreach) as Hinv.
  destruct Hexit as [[-> Hsize] | [-> _]]; cbn [conclude] in Hrun;
    injection Hrun as <- _ _; [|discriminate Hstate].
  destruct (completed_all _ _ _ Hinv Hsize) as [Hnodup Hall].
  destruct Hinv as (Hkeys & Hids & _).
  cbn [results set_state set_results]. split; [|split].
  - intros step Hin. apply Hkeys, Hall, Hin.
  - intros k Hk. apply Hids, Hkeys, Hk.
  - exact Hnodup.
Qed.

(** X9.  A result that [run_workflow] returns with state FAILED carries no
    step result at all, whatever steps had completed: its results are
    empty, and its errors hold, under the key "workflow", the message of
    the circular-dependency check. *)
Theorem failed_result_has_no_results fuel new_context self wid context (w : World)
    definition r self' w' :
  workflows self !! wid = Some definition ->
  run_workflow fuel new_context self wid context w = Some (Returns r, self', w') ->
  state r = FAILED ->
  results r = [] /\
  exists remaining,
    dict_get "workflow" (errors r) = Some (circular_message remaining) /\
    forall k, k ∈ remaining -> exists step, step ∈ steps definition /\ id step = k.
Proof.
  intros Hwf Hrun Hstate. unfold run_workflow in Hrun. rewrite Hwf in Hrun.
  destruct (while_loop _ _ _ _ _) as [exit|] eqn:Hloop; [|discriminate].
  apply while_loop_exit_cases in Hloop as (n & st & _ & Hreach & Hexit).
  pose proof (reaches_invariant _ _ _ _ _ _ _ Hreach) as (_ & _ & _ & Hres).
  destruct Hexit as [[-> _] | [-> _]]; cbn [conclude] in Hrun;
    injection Hrun as <- _ _; [discriminate Hstate|].
  cbn [results errors set_state set_error]. split; [exact Hres|].
  eexists. split; [apply dict_get_set_eq|].
  intros k Hk. apply remaining_steps_spec in Hk as (step & Hin & Hid & _). eauto.
Qed.

(** X10.  A workflow without steps completes at once: with any fuel and any
    agents, [run_workflow] returns the empty result with state COMPLETED. *)
Theorem empty_workflow_completes fuel new_context self wid context (w : World) definition :
  workflows self !! wid = Some definition ->
  steps definition = [] ->
  run_workflow fuel new_context self wid context w
  = Some (Returns (mkResult wid COMPLETED [] []),
          mkOrchestrator (agents self) (workflows self)
                         (delete wid (active_workflows self)),
          w).
Proof.
  intros Hwf Hsteps. unfold run_workflow. rewrite Hwf.
  rewrite while_loop_done by (rewrite Hsteps; cbn; lia).
  cbn [conclude store_active agents workflows active_workflows].
  now rewrite delete_insert_eq.
Qed.

End ExitProperties.

(** ** What every round keeps *)

Section RoundProperties.
Context {World Ctx : Type}.
Implicit Types (self : AgentOrchestrator World Ctx) (st : LoopState World)
               (definition : WorkflowDefinition) (ctx : Ctx).

Lemma reaches_keeps_invariant self definition ctx wid st0 n st :
  loop_invariant definition wid st0 ->
  reaches self definition ctx st0 n st ->
  loop_invariant definition wid st.
Proof.
  intros Hinv. induction 1 as [|n st st' _ IH _ Hbody]; [exact Hinv|].
  eapply loop_body_invariant; eassumption.
Qed.

(** X11.  A step is dispatched only when every one of its dependencies has
    a result in [step_results], produced by a step of the batch of an
    earlier round; and the step itself has not run to success before. *)
Theorem dependencies_ready_at_dispatch self definition ctx wid (w : World) n st step dep :
  reaches self definition ctx (initial_loop wid w) n st ->
  step ∈ next_batch definition st ->
  dep ∈ dependencies step ->
  is_Some (dict_get dep (step_results st)) /\
  (exists m st_m producer,
      (m < n)%nat /\
      reaches self definition ctx (initial_loop wid w) m st_m /\
      producer ∈ next_batch definition st_m /\ id producer = dep) /\
  id step ∉ completed_steps st.
Proof.
  intros Hreach Hin Hdep.
  pose proof (reaches_invariant _ _ _ _ _ _ _ Hreach) as (Hkeys & _).
  apply next_batch_executable in Hin. unfold executable_steps in Hin.
  apply list_elem_of_filter in Hin as [[Hnot Hdeps] _].
  assert (is_Some (dict_get dep (step_results st))) as Hsome.
  { apply Hkeys. rewrite Forall_forall in Hdeps. now apply Hdeps. }
  split; [exact Hsome|]. split; [|exact Hnot].
  eapply visible_results_are_earlier; eassumption.
Qed.

Lemma fold_record_keeps items st k (v : pyvalue) :
  (forall step o, (step, o) ∈ items -> id step <> k) ->
  dict_get k (step_results st) = Some v ->
  dict_get k (step_results (fold_left record_outcome items st)) = Some v.
Proof.
  revert st. induction items as [|[step o] items IH]; intros st Hne Hget; [exact Hget|].
  cbn [fold_left]. apply IH.
  - intros step' o' H. eapply Hne. right. exact H.
  - destruct o as [v'|msg]; cbn [record_outcome step_results]; [|exact Hget].
    rewrite dict_get_set_ne; [exact Hget|].
    intros Heq. eapply Hne; [left | symmetry; exact Heq].
Qed.

(** X12.  A result written to [step_results] is never overwritten: from the
    round that follows its writing to the end of the loop the id keeps the
    same value. *)
Theorem step_results_write_once self definition ctx wid (w : World) m st_m n st k v :
  reaches self definition ctx (initial_loop wid w) m st_m ->
  reaches self definition ctx st_m n st ->
  dict_get k (step_results st_m) = Some v ->
  dict_get k (step_results st) = Some v.
Proof.
  intros Hm Hn Hget.
  pose proof (reaches_invariant _ _ _ _ _ _ _ Hm) as Hinv_m.
  induction Hn as [|n st st' Hreach IH _ Hbody]; [exact Hget|].
  pose proof (reaches_keeps_invariant _ _ _ _ _ _ _ Hinv_m Hreach) as (Hkeys & _).
  apply loop_body_continue in Hbody as (outs & w' & _ & ->).
  apply fold_record_keeps; [|exact IH].
  intros step o Hin%elem_of_zip_l <-.
  apply next_batch_executable, executable_in_definition in Hin as [_ Hnot].
  apply Hnot, Hkeys. rewrite IH. eauto.
Qed.

Lemma dict_set_not_nil {V : Type} k (v : V) (d : pydict V) : dict_set k v d <> [].
Proof. destruct d as [|[k' v'] d]; simpl; [|destruct (String.eqb k k')]; discriminate. Qed.

Lemma record_outcome_errors definition st step o :
  step ∈ steps definition ->
  ((state (result st) = RUNNING /\ errors (result st) = []) \/
   (state (result st) = FAILED /\ errors (result st) <> [])) /\
  (forall k, is_Some (dict_get k (errors (result st))) ->
             exists s, s ∈ steps definition /\ id s = k) ->
  ((state (result (record_outcome st (step, o))) = RUNNING /\
    errors (result (record_outcome st (step, o))) = []) \/
   (state (result (record_outcome st (step, o))) = FAILED /\
    errors (result (record_outcome st (step, o))) <> [])) /\
  (forall k, is_Some (dict_get k (errors (result (record_outcome st (step, o))))) ->
             exists s, s ∈ steps definition /\ id s = k).
Proof.
  intros Hin [Hstate Hkeys]. destruct o as [v|msg]; cbn [record_outcome result].
  - split; assumption.
  - cbn [state errors set_state set_error]. split.
    + right. split; [reflexivity | apply dict_set_not_nil].
    + intros k [-> | Hk]%dict_get_set_is_Some; eauto.
Qed.

(** X13.  At the top of every round the state of the result is RUNNING when
    no step has failed so far and FAILED as soon as one has, never anything
    else; and every key of [errors] is the id of a step of the definition. *)
Theorem errors_and_state_agree self definition ctx wid (w : World) n st :
  reaches self definition ctx (initial_loop wid w) n st ->
  ((state (result st) = RUNNING /\ errors (result st) = []) \/
   (state (result st) = FAILED /\ errors (result st) <> [])) /\
  (forall k, is_Some (dict_get k (errors (result st))) ->
             exists step, step ∈ steps definition /\ id step = k).
Proof.
  induction 1 as [|n st st' _ IH _ Hbody].
  - split; [left; split; reflexivity|]. intros k [x Hx]. discriminate.
  - apply loop_body_continue in Hbody as (outs & w' & _ & ->).
    assert (forall step o, (step, o) ∈ zip (next_batch definition st) outs ->
                           step ∈ steps definition) as Hsteps.
    { intros step o Hin%elem_of_zip_l.
      now apply next_batch_executable, executable_in_definition in Hin. }
    revert Hsteps.
    generalize (zip (next_batch definition st) outs) as items.
    change (errors (result st)) with
      (errors (result (mkLoop (completed_steps st) (step_results st) (result st) w'))) in IH.
    change (state (result st)) with
      (state (result (mkLoop (completed_steps st) (step_results st) (result st) w'))) in IH.
    revert IH.
    generalize (mkLoop (completed_steps st) (step_results st) (result st) w') as st1.
    intros st1 IH items. revert st1 IH.
    induction items as [|[step o] items IHitems]; intros st1 IH Hsteps; [exact IH|].
    cbn [fold_left]. apply IHitems.
    + apply (record_outcome_errors definition); [|exact IH]. eapply Hsteps. left.
    + intros step' o' H. eapply Hsteps. right. exact H.
Qed.

(** X14.  The batch of a round is an initial segment of the executable
    steps, which are listed in the order of the definition.  Its length is
    the smaller of [max_concurrent] and the number of executable steps when
    [max_concurrent] is not negative; a negative [max_concurrent] cuts that
    many steps off the end instead.  [gather] delivers one outcome per step
    of the batch. *)
Theorem batch_is_bounded_prefix self definition ctx st :
  next_batch definition st `prefix_of` executable_steps definition (completed_steps st) /\
  executable_steps definition (completed_steps st) `sublist_of` steps definition /\
  Z.of_nat (length (next_batch definition st))
  = (if 0 <=? max_concurrent definition
     then Z.min (max_concurrent definition)
                (Z.of_nat (length (executable_steps definition (completed_steps st))))
     else Z.max 0 (Z.of_nat (length (executable_steps definition (completed_steps st)))
                   + max_concurrent definition)) /\
  length (fst (gather self ctx (next_batch definition st) st))
  = length (next_batch definition st).
Proof.
  unfold next_batch, py_slice_to. split; [|split; [|split]].
  - destruct (0 <=? max_concurrent definition); apply prefix_take.
  - apply sublist_filter.
  - destruct (0 <=? max_concurrent definition) eqn:E; rewrite length_take.
    + apply Z.leb_le in E. lia.
    + apply Z.leb_gt in E. lia.
  - generalize (if 0 <=? max_concurrent definition
                then take (Z.to_nat (max_concurrent definition))
                          (executable_steps definition (completed_steps st))
                else take (Z.to_nat (Z.of_nat (length (executable_steps definition
                                                          (completed_steps st)))
                                     + max_concurrent definition))
                          (executable_steps definition (completed_steps st))) as batch.
    intros batch. revert st. induction batch as [|step rest IH]; intros st; [reflexivity|].
    cbn [gather].
    destruct (_execute_step self step ctx (step_results st) (world st)) as [o w1].
    specialize (IH (mkLoop (completed_steps st) (step_results st) (result st) w1)).
    destruct (gather self ctx rest _) as [os st']. cbn [fst length] in *. now rewrite IH.
Qed.

(** X15.  With [max_concurrent] zero, or negative and at least as large in
    absolute value as the number of steps that are executable at the start,
    the batch of the first round is empty while steps are waiting: the round
    changes nothing, and the run of such a workflow never ends. *)
Theorem no_concurrency_never_ends new_context self wid (context : option Ctx) (w : World)
    definition :
  workflows self !! wid = Some definition ->
  executable_steps definition ∅ <> [] ->
  max_concurrent definition = 0 \/
  max_concurrent definition <= - Z.of_nat (length (executable_steps definition ∅)) ->
  forall fuel, run_workflow fuel new_context self wid context w = None.
Proof.
  intros Hwf Hexe Hmax fuel. unfold run_workflow. rewrite Hwf.
  assert (next_batch definition (initial_loop wid w) = []) as Hbatch.
  { unfold next_batch, py_slice_to. cbn [completed_steps initial_loop].
    destruct (0 <=? max_concurrent definition) eqn:E.
    - apply Z.leb_le in E. replace (max_concurrent definition) with 0 by lia.
      reflexivity.
    - apply Z.leb_gt in E. replace (Z.to_nat _) with O by lia. reflexivity. }
  assert (loop_body (store_active self wid (initial_result wid)) definition
                    (default new_context context) (initial_loop wid w)
          = Continue (initial_loop wid w)) as Hbody.
  { unfold loop_body. rewrite Hbatch. cbn [completed_steps initial_loop].
    now destruct (executable_steps definition ∅). }
  assert ((size (completed_steps (initial_loop wid w)) <? length (steps definition))%nat
          = true) as Hcond.
  { apply Nat.ltb_lt. cbn [completed_steps initial_loop]. rewrite size_empty.
    assert (length (executable_steps definition ∅) <= length (steps definition))%nat
      as Hlen by apply sublist_length, sublist_filter.
    destruct (executable_steps definition ∅) eqn:E; [now elim Hexe | cbn in Hlen; lia]. }
  assert (while_loop fuel (store_active self wid (initial_result wid)) definition
                     (default new_context context) (initial_loop wid w) = None) as ->;
    [|reflexivity].
  induction fuel as [|fuel IH].
  - cbn [while_loop]. now rewrite Hcond.
  - rewrite while_loop_unfold, Hcond, Hbody. exact IH.
Qed.

End RoundProperties.

(** ** Runs with agents that never fail *)

Section ReliableRuns.
Context {World Ctx : Type}.
Implicit Types (self : AgentOrchestrator World Ctx) (st : LoopState World)
               (definition : WorkflowDefinition) (ctx : Ctx).

Lemma gather_on_snapshot_reliable self ctx visible batch (w : World) :
  (forall step, step ∈ batch ->
     exists agent, agents self !! agent_name step = Some agent /\
                   truthy agent = true /\ never_fails agent) ->
  exists vs w',
    gather_on_snapshot self ctx visible batch w = (Returned <$> vs, w') /\
    length vs = length batch.
Proof.
  revert w. induction batch as [|step rest IH]; intros w Hrel.
  - exists [], w. split; reflexivity.
  - destruct (Hrel step) as (agent & Hagent & Htruthy & Hnever); [left|].
    cbn [gather_on_snapshot]. unfold _execute_step, get_agent. rewrite Hagent, Htruthy.
    destruct (Hnever (_prepare_task (task step) visible) ctx w) as (v & w1 & ->).
    destruct (IH w1) as (vs & w' & -> & Hlen).
    { intros s Hs. apply Hrel. now right. }
    exists (v :: vs), w'. split; [reflexivity | cbn; now rewrite Hlen].
Qed.

Lemma fold_record_returned batch vs st :
  length vs = length batch ->
  (forall k, k ∈ completed_steps (fold_left record_outcome (zip batch (Returned <$> vs)) st)
             <-> k ∈ id <$> batch \/ k ∈ completed_steps st) /\
  result (fold_left record_outcome (zip batch (Returned <$> vs)) st) = result st.
Proof.
  revert vs st. induction batch as [|step rest IH]; intros [|v vs] st Hlen;
    try discriminate Hlen.
  - split; [|reflexivity]. intros k. cbn. rewrite elem_of_nil. tauto.
  - injection Hlen as Hlen. rewrite (fmap_cons Returned). cbn [zip_with fold_left].
    destruct (IH vs (record_outcome st (step, Returned v)) Hlen) as [Hk Hres].
    split; [|exact Hres].
    intros k. rewrite Hk. cbn [record_outcome completed_steps].
    rewrite fmap_cons, elem_of_cons, elem_of_union, elem_of_singleton. tauto.
Qed.

(** A round with reliable agents either meets an empty frontier or
    completes at least one more step, and records no failure. *)
Lemma reliable_round self definition ctx st :
  reliable_agents self definition ->
  1 <= max_concurrent definition ->
  (exists msg, loop_body self definition ctx st = Throw msg st) \/
  (exists st', loop_body self definition ctx st = Continue st' /\
               (size (completed_steps st) < size (completed_steps st'))%nat /\
               result st' = result st).
Proof.
  intros Hrel Hmax.
  destruct (executable_steps definition (completed_steps st)) as [|e es] eqn:Hexe.
  { left. eexists. now apply loop_body_throw. }
  right.
  destruct (loop_body self definition ctx st) as [st'|msg st'] eqn:Hbody.
  2:{ apply loop_body_throw_inv in Hbody as (_ & _ & Hempty). congruence. }
  exists st'. split; [reflexivity|].
  apply loop_body_continue in Hbody as (outs & w' & Hg & ->).
  assert (e ∈ next_batch definition st) as He.
  { unfold next_batch, py_slice_to. rewrite Hexe.
    replace (0 <=? max_concurrent definition) with true by (symmetry; apply Z.leb_le; lia).
    replace (Z.to_nat (max_concurrent definition))
      with (S (Z.to_nat (max_concurrent definition - 1))) by lia.
    left. }
  destruct (gather_on_snapshot_reliable self ctx (step_results st)
              (next_batch definition st) (world st)) as (vs & w'' & Hg' & Hlen).
  { intros step Hs. apply Hrel.
    now apply next_batch_executable, executable_in_definition in Hs. }
  rewrite Hg in Hg'. injection Hg' as -> ->.
  destruct (fold_record_returned (next_batch definition st) vs
              (mkLoop (completed_steps st) (step_results st) (result st) w'') Hlen)
    as [Hk Hres].
  split; [|exact Hres].
  apply subset_size. split.
  - intros k Hc. apply Hk. now right.
  - intros Hsup.
    assert (e ∈ executable_steps definition (completed_steps st)) as He'
        by (rewrite Hexe; left).
    apply executable_in_definition in He' as [_ Hnot].
    apply Hnot, Hsup, Hk. left. apply list_elem_of_fmap. eauto.
Qed.

Lemma reliable_loop_terminates self definition ctx :
  reliable_agents self definition ->
  1 <= max_concurrent definition ->
  forall d st fuel,
    (length (steps definition) - size (completed_steps st) <= d)%nat ->
    (d <= fuel)%nat ->
    exists exit, while_loop fuel self definition ctx st = Some exit.
Proof.
  intros Hrel Hmax. induction d as [|d IH]; intros st fuel Hd Hfuel.
  - eexists. apply while_loop_done. lia.
  - destruct (decide (length (steps definition) <= size (completed_steps st))%nat)
      as [Hdone|Hcond].
    { eexists. now apply while_loop_done. }
    destruct fuel as [|fuel]; [lia|].
    rewrite while_loop_unfold.
    replace (size (completed_steps st) <? length (steps definition))%nat with true
      by (symmetry; apply Nat.ltb_lt; lia).
    destruct (reliable_round self definition ctx st Hrel Hmax)
      as [[msg ->] | (st' & -> & Hsize & _)]; [eauto|].
    apply IH; lia.
Qed.

Lemma reliable_reaches_result self definition ctx st0 n st :
  reliable_agents self definition ->
  1 <= max_concurrent definition ->
  reaches self definition ctx st0 n st ->
  result st = result st0.
Proof.
  intros Hrel Hmax. induction 1 as [|n st st' _ IH _ Hbody]; [reflexivity|].
  destruct (reliable_round self definition ctx st Hrel Hmax)
    as [[msg Hthrow] | (st1 & Hcont & _ & Hres)]; [congruence|].
  rewrite Hbody in Hcont. injection Hcont as <-. congruence.
Qed.

Lemma reliable_store_active self definition wid r :
  reliable_agents self definition ->
  reliable_agents (store_active self wid r) definition.
Proof. intros H step Hin. exact (H step Hin). Qed.

(** X16.  When every step names a registered agent that never fails and
    [max_concurrent] is at least one, [run_workflow] returns for every
    workflow, cyclic or not, within as many rounds as the definition has
    steps; the result is COMPLETED with no errors, or FAILED with the
    circular-dependency message as its only error. *)
Theorem reliable_run_terminates fuel new_context self wid (context : option Ctx)
    (w : World) definition :
  workflows self !! wid = Some definition ->
  reliable_agents self definition ->
  1 <= max_concurrent definition ->
  (length (steps definition) <= fuel)%nat ->
  exists r self' w',
    run_workflow fuel new_context self wid context w = Some (Returns r, self', w') /\
    ((state r = COMPLETED /\ errors r = []) \/
     (state r = FAILED /\
      exists remaining, errors r = [("workflow", circular_message remaining)])).
Proof.
  intros Hwf Hrel Hmax Hfuel. unfold run_workflow. rewrite Hwf.
  apply (reliable_store_active _ _ wid (initial_result wid)) in Hrel.
  destruct (reliable_loop_terminates _ definition (default new_context context) Hrel Hmax
              (length (steps definition)) (initial_loop wid w) fuel) as [exit Hloop];
    [lia | exact Hfuel |].
  rewrite Hloop.
  apply while_loop_exit_cases in Hloop as (n & st & _ & Hreach & Hexit).
  pose proof (reliable_reaches_result _ _ _ _ _ _ Hrel Hmax Hreach) as Hres.
  destruct Hexit as [[-> _] | [-> _]]; cbn [conclude]; eexists _, _, _;
    (split; [reflexivity|]); rewrite Hres; cbn; eauto.
Qed.

(** With an acyclic definition some incomplete step is always executable. *)
Lemma acyclic_frontier_nonempty definition (completed : gset string) :
  acyclic definition ->
  (exists step, step ∈ steps definition /\ id step ∉ completed) ->
  executable_steps definition completed <> [].
Proof.
  intros (l & Hperm & Hord) (step & Hin & Hnot).
  destruct (list_find_elem_of (fun s => id s ∉ completed) l step) as [[i x] Hfind];
    [now rewrite Hperm | exact Hnot |].
  apply list_find_Some in Hfind as (Hi & Hx & Hmin).
  assert (x ∈ executable_steps definition completed) as Hexe.
  { apply list_elem_of_filter. split.
    - split; [exact Hx|]. apply Forall_forall. intros dep Hdep.
      destruct (Hord i x dep Hi Hdep) as (j & step' & Hj & Hlook & <-).
      destruct (decide (id step' ∈ completed)) as [Hc|Hc]; [exact Hc|].
      now elim (Hmin j step' Hlook Hj).
    - rewrite <- Hperm. eapply list_elem_of_lookup_2. exact Hi. }
  intros Hempty. rewrite Hempty in Hexe. now apply elem_of_nil in Hexe.
Qed.

Lemma incomplete_step_exists definition st :
  (size (completed_steps st) < length (steps definition))%nat ->
  NoDup (id <$> steps definition) ->
  exists step, step ∈ steps definition /\ id step ∉ completed_steps st.
Proof.
  intros Hsize Hnodup.
  destruct (list_find (fun s => id s ∉ completed_steps st) (steps definition))
    as [[i x]|] eqn:Hfind.
  - apply list_find_Some in Hfind as (Hi & Hx & _).
    exists x. split; [eapply list_elem_of_lookup_2; exact Hi | exact Hx].
  - exfalso. apply list_find_None in Hfind.
    assert ((list_to_set (id <$> steps definition) : gset string) ⊆ completed_steps st)
      as Hsub.
    { intros k Hk. apply elem_of_list_to_set, list_elem_of_fmap in Hk as (s & -> & Hs).
      rewrite Forall_forall in Hfind. specialize (Hfind s Hs).
      destruct (decide (id s ∈ completed_steps st)); [assumption | contradiction]. }
    apply subseteq_size in Hsub.
    rewrite size_list_to_set, length_fmap in Hsub by exact Hnodup. lia.
Qed.

(** X17.  A workflow with an acyclic step graph, distinct step ids, agents
    that never fail and [max_concurrent] of at least one completes: within
    as many rounds as it has steps [run_workflow] returns state COMPLETED,
    no errors, and a result for every step. *)
Theorem acyclic_reliable_run_completes fuel new_context self wid (context : option Ctx)
    (w : World) definition :
  workflows self !! wid = Some definition ->
  acyclic definition ->
  NoDup (id <$> steps definition) ->
  reliable_agents self definition ->
  1 <= max_concurrent definition ->
  (length (steps definition) <= fuel)%nat ->
  exists r self' w',
    run_workflow fuel new_context self wid context w = Some (Returns r, self', w') /\
    state r = COMPLETED /\
    errors r = [] /\
    forall step, step ∈ steps definition -> is_Some (dict_get (id step) (results r)).
Proof.
  intros Hwf Hacyclic Hnodup Hrel Hmax Hfuel. unfold run_workflow. rewrite Hwf.
  apply (reliable_store_active _ _ wid (initial_result wid)) in Hrel.
  destruct (reliable_loop_terminates _ definition (default new_context context) Hrel Hmax
              (length (steps definition)) (initial_loop wid w) fuel) as [exit Hloop];
    [lia | exact Hfuel |].
  rewrite Hloop.
  apply while_loop_exit_cases in Hloop as (n & st & _ & Hreach & Hexit).
  pose proof (reliable_reaches_result _ _ _ _ _ _ Hrel Hmax Hreach) as Hres.
  pose proof (reaches_invariant _ _ _ _ _ _ _ Hreach) as Hinv.
  destruct Hexit as [[-> Hsize] | [-> [Hsize Hempty]]].
  - cbn [conclude]. eexists _, _, _. split; [reflexivity|].
    split; [reflexivity|]. split; [now rewrite Hres|].
    destruct (completed_all _ _ _ Hinv Hsize) as [_ Hall].
    destruct Hinv as (Hkeys & _).
    intros s Hs. cbn [results set_state set_results]. apply Hkeys, Hall, Hs.
  - exfalso.
    apply (acyclic_frontier_nonempty definition (completed_steps st) Hacyclic);
      [|exact Hempty].
    eapply incomplete_step_exists; eassumption.
Qed.

End ReliableRuns.

(** ** Steps whose agent is not registered *)

Section UnregisteredAgents.
Context {World Ctx : Type}.
Implicit Types (self : AgentOrchestrator World Ctx) (st : LoopState World)
               (definition : WorkflowDefinition) (ctx : Ctx).

Lemma gather_on_snapshot_registered self ctx visible batch (w : World) outs w' :
  gather_on_snapshot self ctx visible batch w = (outs, w') ->
  forall step v, (step, Returned v) ∈ zip batch outs ->
                 is_Some (agents self !! agent_name step).
Proof.
  revert w outs. induction batch as [|s rest IH]; intros w outs Hg step v Hin.
  - now apply elem_of_nil in Hin.
  - cbn [gather_on_snapshot] in Hg.
    destruct (_execute_step self s ctx visible w) as [o w1] eqn:Hexec.
    destruct (gather_on_snapshot self ctx visible rest w1) as [os w2] eqn:Hrest.
    injection Hg as <- <-. cbn [zip_with] in Hin.
    apply elem_of_cons in Hin as [[= -> <-] | Hin].
    + unfold _execute_step, get_agent in Hexec.
      destruct (agents self !! agent_name s); [eauto | discriminate].
    + eapply IH; eassumption.
Qed.

Lemma fold_record_registered self definition items st :
  (forall step v, (step, Returned v) ∈ items ->
     step ∈ steps definition /\ is_Some (agents self !! agent_name step)) ->
  (forall k, k ∈ completed_steps st ->
     exists step, step ∈ steps definition /\ id step = k /\
                  is_Some (agents self !! agent_name step)) ->
  forall k, k ∈ completed_steps (fold_left record_outcome items st) ->
    exists step, step ∈ steps definition /\ id step = k /\
                 is_Some (agents self !! agent_name step).
Proof.
  revert st. induction items as [|[s o] items IH]; intros st Hitems Hinv; [exact Hinv|].
  cbn [fold_left]. apply IH.
  - intros s' v H. apply (Hitems s' v). now right.
  - destruct o as [v|msg]; cbn [record_outcome completed_steps]; [|exact Hinv].
    intros k [->%elem_of_singleton | Hk]%elem_of_union; [|now apply Hinv].
    destruct (Hitems s v) as [Hs Hreg]; [left|]. eauto.
Qed.

(** Every completed id is the id of a step whose agent is registered. *)
Lemma completed_steps_registered self definition ctx wid (w : World) n st :
  reaches self definition ctx (initial_loop wid w) n st ->
  forall k, k ∈ completed_steps st ->
    exists step, step ∈ steps definition /\ id step = k /\
                 is_Some (agents self !! agent_name step).
Proof.
  induction 1 as [|n st st' _ IH _ Hbody].
  - intros k Hk. now apply not_elem_of_empty in Hk.
  - apply loop_body_continue in Hbody as (outs & w' & Hg & ->).
    apply fold_record_registered; [|exact IH].
    intros step v Hin. split.
    + apply elem_of_zip_l in Hin.
      now apply next_batch_executable, executable_in_definition in Hin.
    + eapply gather_on_snapshot_registered; eassumption.
Qed.

Lemma NoDup_fmap_eq {A B : Type} (f : A -> B) (l : list A) x y :
  NoDup (f <$> l) -> x ∈ l -> y ∈ l -> f x = f y -> x = y.
Proof.
  induction l as [|a l IH]; intros Hnd Hx Hy Heq; [now apply elem_of_nil in Hx|].
  rewrite fmap_cons in Hnd. apply NoDup_cons in Hnd as [Hnot Hnd].
  apply elem_of_cons in Hx as [->|Hx]; apply elem_of_cons in Hy as [->|Hy].
  - reflexivity.
  - elim Hnot. rewrite Heq. now apply list_elem_of_fmap_2.
  - elim Hnot. rewrite <- Heq. now apply list_elem_of_fmap_2.
  - now apply IH.
Qed.

(** X18.  A workflow with a step whose agent is not registered never
    completes: if its run returns at all, the state of the result is
    FAILED. *)
Theorem unregistered_agent_never_completes fuel new_context self wid
    (context : option Ctx) (w : World) definition step r self' w' :
  workflows self !! wid = Some definition ->
  step ∈ steps definition ->
  agents self !! agent_name step = None ->
  run_workflow fuel new_context self wid context w = Some (Returns r, self', w') ->
  state r = FAILED.
Proof.
  intros Hwf Hin Hnone Hrun. unfold run_workflow in Hrun. rewrite Hwf in Hrun.
  destruct (while_loop _ _ _ _ _) as [exit|] eqn:Hloop; [|discriminate].
  apply while_loop_exit_cases in Hloop as (n & st & _ & Hreach & Hexit).
  destruct Hexit as [[-> Hsize] | [-> _]]; cbn [conclude] in Hrun;
    injection Hrun as <- _ _; [exfalso | reflexivity].
  pose proof (reaches_invariant _ _ _ _ _ _ _ Hreach) as Hinv.
  destruct (completed_all _ _ _ Hinv Hsize) as [Hnodup Hall].
  destruct (completed_steps_registered _ _ _ _ _ _ _ Hreach (id step) (Hall step Hin))
    as (step' & Hin' & Hid & Hreg).
  assert (step' = step) as -> by (eapply NoDup_fmap_eq; eassumption).
  cbn [store_active agents] in Hreg. rewrite Hnone in Hreg.
  destruct Hreg as [x Hx]. discriminate.
Qed.

End UnregisteredAgents.

(** ** [run_simple_workflow] *)

Section SimpleWorkflows.
Context {World Ctx : Type}.
Implicit Types (self : AgentOrchestrator World Ctx) (context : option Ctx).

(** The step that [run_simple_workflow] builds from a record at index [i]. *)
Local Notation "'built_step' i r agent task" :=
  (mkStep (default ("step_" +:+ str_of_Z (Z.of_nat i)) (rec_id r)) agent task
          (default [] (rec_dependencies r)) 0 (default 3 (rec_max_retries r)))
  (at level 10, i at level 9, r at level 9, agent at level 9, task at level 9).

Lemma workflow_steps_key (i : nat) (records : list StepRecord) key :
  workflow_steps i records = inl key -> key = "agent" \/ key = "task".
Proof.
  revert i. induction records as [|r records IH]; intros i; cbn [workflow_steps];
    [discriminate|].
  destruct (rec_agent r); [|intros [= <-]; now left].
  destruct (rec_task r); [|intros [= <-]; now right].
  destruct (workflow_steps (S i) records) eqn:E; [|discriminate].
  intros [= <-]. eapply IH. exact E.
Qed.

Lemma workflow_steps_built (i : nat) (records : list StepRecord) built :
  workflow_steps i records = inr built ->
  length built = length records /\
  Forall (fun r => is_Some (rec_agent r) /\ is_Some (rec_task r)) records.
Proof.
  revert i built. induction records as [|r records IH]; intros i built;
    cbn [workflow_steps].
  - intros [= <-]. split; [reflexivity | constructor].
  - destruct (rec_agent r) eqn:Ha; [|discriminate].
    destruct (rec_task r) eqn:Ht; [|discriminate].
    destruct (workflow_steps (S i) records) eqn:E; [discriminate|].
    intros [= <-]. destruct (IH _ _ E) as [Hlen Hall].
    split; [cbn; now rewrite Hlen|]. constructor; [|exact Hall].
    rewrite Ha, Ht. eauto.
Qed.

Lemma workflow_steps_total (i : nat) (records : list StepRecord) :
  Forall (fun r => is_Some (rec_agent r) /\ is_Some (rec_task r)) records ->
  exists built, workflow_steps i records = inr built.
Proof.
  intros Hall. revert i. induction Hall as [|r records [[a Ha] [t Ht]] _ IH]; intros i.
  - eexists. reflexivity.
  - cbn [workflow_steps]. rewrite Ha, Ht. destruct (IH (S i)) as [built ->]. eauto.
Qed.

(** X19.  The steps that [run_simple_workflow] builds: when every record
    has an agent and a task there is one step per record, in order, with
    the id of the record or "step_<index>", no dependencies and three
    retries by default; otherwise the build stops at the first record
    that lacks a key, with [agent] looked up before [task]. *)
Theorem workflow_steps_spec (i : nat) (records : list StepRecord) :
  match workflow_steps i records with
  | inr built =>
      length built = length records /\
      forall j r, records !! j = Some r ->
        exists agent task,
          rec_agent r = Some agent /\ rec_task r = Some task /\
          built !! j = Some (built_step (i + j) r agent task)
  | inl key =>
      exists j r,
        records !! j = Some r /\
        (forall j' r', (j' < j)%nat -> records !! j' = Some r' ->
                       is_Some (rec_agent r') /\ is_Some (rec_task r')) /\
        ((rec_agent r = None /\ key = "agent") \/
         (is_Some (rec_agent r) /\ rec_task r = None /\ key = "task"))
  end.
Proof.
  revert i. induction records as [|r records IH]; intros i.
  - cbn. split; [reflexivity|]. intros j r H. discriminate.
  - cbn [workflow_steps].
    destruct (rec_agent r) as [agent|] eqn:Ha.
    2:{ exists O, r. split; [reflexivity|]. split; [intros; lia|]. left. now split. }
    destruct (rec_task r) as [task|] eqn:Ht.
    2:{ exists O, r. split; [reflexivity|]. split; [intros; lia|].
        right. rewrite Ha. eauto. }
    specialize (IH (S i)). destruct (workflow_steps (S i) records) as [key|built].
    + destruct IH as (j & r0 & Hj & Hbefore & Hkey).
      exists (S j), r0. split; [exact Hj|]. split; [|exact Hkey].
      intros [|j'] r' Hlt Hr'.
      * injection Hr' as <-. rewrite Ha, Ht. eauto.
      * apply (Hbefore j'); [lia | exact Hr'].
    + destruct IH as [Hlen Hsteps]. split; [cbn; now rewrite Hlen|].
      intros [|j] r0 Hr0.
      * injection Hr0 as <-. exists agent, task. rewrite Nat.add_0_r. eauto.
      * destruct (Hsteps j r0 Hr0) as (a & t & Ha0 & Ht0 & Hb).
        exists a, t. replace (i + S j)%nat with (S i + j)%nat by lia. eauto.
Qed.

(** X20.  When a record has no agent or no task, [run_simple_workflow]
    raises the [KeyError] of that key, whatever the fuel, before any
    workflow is created: the orchestrator and the world are unchanged. *)
Theorem run_simple_workflow_missing_key fuel new_context self fresh records context
    (w : World) r :
  r ∈ records ->
  rec_agent r = None \/ rec_task r = None ->
  exists key,
    (key = "agent" \/ key = "task") /\
    run_simple_workflow fuel new_context self fresh records context w
    = Some (Raises (String PyStr.squote (key +:+ String PyStr.squote "")), self, w).
Proof.
  intros Hin Hmissing. unfold run_simple_workflow.
  destruct (workflow_steps 0 records) as [key|built] eqn:E.
  - destruct (workflow_steps_key _ _ _ E) as [-> | ->];
      eexists; (split; [|reflexivity]); auto.
  - exfalso. apply workflow_steps_built in E as [_ Hall].
    rewrite Forall_forall in Hall. destruct (Hall r Hin) as [[a Ha] [t Ht]].
    destruct Hmissing; congruence.
Qed.

(** X21.  When every record has an agent and a task, [run_simple_workflow]
    never raises: when it ends it returns the result of the workflow it
    created, and that workflow, named simple_workflow with [max_concurrent]
    five and one step per record, stays stored in the orchestrator, while
    the active table has no entry for it. *)
Theorem run_simple_workflow_complete_records fuel new_context self fresh records context
    (w : World) out self' w' :
  Forall (fun r => is_Some (rec_agent r) /\ is_Some (rec_task r)) records ->
  run_simple_workflow fuel new_context self fresh records context w
  = Some (out, self', w') ->
  exists r built,
    out = Returns r /\
    workflow_id r = fresh /\
    workflow_steps 0 records = inr built /\
    length built = length records /\
    workflows self' !! fresh = Some (mkDefinition "simple_workflow" built 5) /\
    agents self' = agents self /\
    get_workflow_status self' fresh = None.
Proof.
  intros Hall Hrun. unfold run_simple_workflow in Hrun.
  destruct (workflow_steps_total 0 records Hall) as [built Hbuilt].
  rewrite Hbuilt in Hrun. cbn [create_workflow] in Hrun.
  destruct (workflow_steps_built _ _ _ Hbuilt) as [Hlen _].
  set (self1 := mkOrchestrator (agents self)
                  (<[fresh := mkDefinition "simple_workflow" built 5]> (workflows self))
                  (active_workflows self)) in *.
  assert (workflows self1 !! fresh = Some (mkDefinition "simple_workflow" built 5))
    as Hwf by apply lookup_insert_eq.
  destruct (run_workflow_returns_result _ _ _ _ _ _ _ _ _ _ Hwf Hrun)
    as (Hactive & r & -> & Hid).
  destruct (run_workflow_keeps_registry _ _ _ _ _ _ _ _ _ Hrun) as [Hagents Hworkflows].
  exists r, built. repeat split; try assumption; try reflexivity.
  now rewrite Hworkflows.
Qed.

End SimpleWorkflows.

(** ** Tasks without placeholders *)

Lemma placeholder_has_prefix (step_id s : string) :
  Spec.occurs (placeholder step_id) s -> Spec.occurs "{step." s.
Proof.
  intros (u & v & ->). exists u, (step_id +:+ "}" +:+ v).
  unfold placeholder. now rewrite !append_assoc.
Qed.

(** X22.  A string task in which the text {step. does not occur comes back
    from [_prepare_task] unchanged, whatever the results are. *)
Theorem prepare_task_without_placeholder (s : string) (step_results : pydict pyvalue) :
  ~ Spec.occurs "{step." s ->
  _prepare_task (VStr s) step_results = VStr s.
Proof.
  intros Hno. cbn [_prepare_task]. f_equal.
  induction step_results as [|[step_id r] d IH]; [reflexivity|].
  cbn [fold_left]. rewrite <- IH at 2. f_equal.
  unfold substitute_one.
  destruct (PyStr.contains (placeholder step_id) s) eqn:E; [|reflexivity].
  apply contains_spec, placeholder_has_prefix in E. contradiction.
Qed.

(** ** [SimpleAgent.execute] *)

(** X23.  After [SimpleAgent.execute] the state of the agent is COMPLETED
    when the call returns and ERROR when it raises an [Exception], of the
    reasoning engine or of the memory manager; when what is raised is not an
    [Exception] the state is left RUNNING.  The context of the agent is the
    one passed, or a new one when none was passed.  When storing the result
    fails the call raises although the reasoning had returned.  With
    reasoning and memory disabled the call always returns the text Task
    completed followed by the task. *)
Theorem simple_agent_execute_state {W Ctx : Type}
    (reasoning : option (pyvalue -> Ctx -> W -> Base.answer * W))
    (memory : option (pyvalue -> pyvalue -> W -> option Base.raised * W))
    (new_context : Ctx) (task : pyvalue) (context : option Ctx)
    (self : Base.AgentFields Ctx * W) :
  (let '(out, (fields, w')) :=
     Base.execute reasoning memory new_context task context self in
   Base.state fields = match out with
                       | Base.Ok _ => Base.COMPLETED
                       | Base.Fail (Base.AnException _) => Base.ERROR
                       | Base.Fail (Base.NotAnException _) => Base.RUNNING
                       end /\
   Base.context fields = Some (default new_context context)) /\
  (forall process store v w1 e w2,
      reasoning = Some process -> memory = Some store ->
      process task (default new_context context) (snd self) = (Base.Ok v, w1) ->
      store task v w1 = (Some e, w2) ->
      fst (Base.execute reasoning memory new_context task context self) = Base.Fail e) /\
  Base.execute None None new_context task context self
  = (Base.Ok (VStr ("Task completed: " +:+ py_str task)),
     (Base.mkFields Base.COMPLETED (Some (default new_context context)), snd self)).
Proof.
  split; [|split; [|reflexivity]].
  - unfold Base.execute. destruct reasoning as [process|].
    + destruct (process task (default new_context context) (snd self))
        as [[v|[msg|msg]] w1]; try (split; reflexivity).
      destruct memory as [store|]; [|split; reflexivity].
      destruct (store task v w1) as [[[msg|msg]|] w2]; split; reflexivity.
    + destruct memory as [store|]; [|split; reflexivity].
      destruct (store task _ (snd self)) as [[[msg|msg]|] w2]; split; reflexivity.
  - intros process store v w1 e w2 -> -> Hp Hs. unfold Base.execute.
    rewrite Hp, Hs. now destruct e.
Qed.

Lemma plain_agent_never_fails {Ctx : Type} :
  never_fails (Base.plain_agent (Ctx:=Ctx)).
Proof. intros task context w. eexists _, _. reflexivity. Qed.

(** The plain agent is [SimpleAgent.execute] with neither collaborator. *)
Lemma plain_agent_is_execute {Ctx : Type} (new_context : Ctx) task context
    (self : Base.AgentFields Ctx) :
  Base.execute (W:=unit) None None new_context task (Some context) (self, tt)
  = (Base.Ok (VStr ("Task completed: " +:+ py_str task)),
     (snd (execute Base.plain_agent task context self), tt)) /\
  fst (execute Base.plain_agent task context self)
  = Returned (VStr ("Task completed: " +:+ py_str task)).
Proof. split; reflexivity. Qed.

(** ** The properties on concrete workflows *)

Import Examples.

Lemma linear_first_round :
  reaches (store_active (orchestrator echo_registry linear) wid (initial_result wid))
          linear tt (initial_loop wid tt) 1
          (mkLoop {[ "a" ]} [("a", VStr "hello")] (initial_result wid) tt).
Proof.
  eapply reaches_round; [apply reaches_start | vm_compute; lia | vm_compute; reflexivity].
Defined.

Lemma cancel_after_run_linear :
  get_workflow_status (orchestrator echo_registry linear) wid = None /\
  cancel_workflow (orchestrator echo_registry linear) wid
  = (false, orchestrator echo_registry linear, None).
Proof.
  apply (cancel_after_run 2 tt (orchestrator echo_registry linear) wid None tt
           (Returns (mkResult wid COMPLETED
                              [("a", VStr "hello"); ("b", VStr "got hello")] []))
           (orchestrator echo_registry linear) tt).
  - exists linear. reflexivity.
  - vm_compute. reflexivity.
Defined.

Lemma completed_result_is_total_linear :
  let r := mkResult wid COMPLETED [("a", VStr "hello"); ("b", VStr "got hello")] [] in
  (forall s, s ∈ steps linear -> is_Some (dict_get (id s) (results r))) /\
  (forall k, is_Some (dict_get k (results r)) ->
             exists s, s ∈ steps linear /\ id s = k) /\
  NoDup (id <$> steps linear).
Proof.
  apply (completed_result_is_total 2 tt (orchestrator echo_registry linear) wid None tt
           linear _ (orchestrator echo_registry linear) tt).
  - reflexivity.
  - vm_compute. reflexivity.
  - reflexivity.
Defined.

Lemma failed_result_has_no_results_cycle :
  let r := mkResult wid FAILED []
             [("workflow", "Circular dependency detected in steps: ['A', 'B']")] in
  results r = [] /\
  exists remaining,
    dict_get "workflow" (errors r) = Some (circular_message remaining) /\
    forall k, k ∈ remaining -> exists s, s ∈ steps cycle /\ id s = k.
Proof.
  apply (failed_result_has_no_results 1 tt (orchestrator echo_registry cycle) wid None tt
           cycle _ (orchestrator echo_registry cycle) tt).
  - reflexivity.
  - vm_compute. reflexivity.
  - reflexivity.
Defined.

Lemma empty_workflow_completes_now :
  run_workflow 0 tt (orchestrator echo_registry empty) wid None tt
  = Some (Returns (mkResult wid COMPLETED [] []),
          mkOrchestrator echo_registry {[ wid := empty ]} (delete wid ∅), tt).
Proof.
  apply (empty_workflow_completes 0 tt (orchestrator echo_registry empty) wid None tt empty).
  - reflexivity.
  - reflexivity.
Defined.

Lemma dependencies_ready_at_dispatch_linear :
  let st1 := mkLoop {[ "a" ]} [("a", VStr "hello")] (initial_result wid) tt in
  is_Some (dict_get "a" (step_results st1)) /\
  (exists m st_m producer,
      (m < 1)%nat /\
      reaches (store_active (orchestrator echo_registry linear) wid (initial_result wid))
              linear tt (initial_loop wid tt) m st_m /\
      producer ∈ next_batch linear st_m /\ id producer = "a") /\
  "b" ∉ completed_steps st1.
Proof.
  intros st1.
  apply (dependencies_ready_at_dispatch _ linear tt wid tt 1 st1
           (step "b" "echo" (VStr "got {step.a}") ["a"]) "a").
  - exact linear_first_round.
  - replace (next_batch linear st1)
      with [step "b" "echo" (VStr "got {step.a}") ["a"]] by (vm_compute; reflexivity).
    left.
  - left.
Defined.

Lemma step_results_write_once_linear :
  dict_get "a" [("a", VStr "hello"); ("b", VStr "got hello")] = Some (VStr "hello").
Proof.
  apply (step_results_write_once
           (store_active (orchestrator echo_registry linear) wid (initial_result wid))
           linear tt wid tt 1
           (mkLoop {[ "a" ]} [("a", VStr "hello")] (initial_result wid) tt) 1
           (mkLoop {[ "b"; "a" ]} [("a", VStr "hello"); ("b", VStr "got hello")]
                   (initial_result wid) tt)
           "a" (VStr "hello")).
  - exact linear_first_round.
  - eapply reaches_round; [apply reaches_start | vm_compute; lia | vm_compute; reflexivity].
  - reflexivity.
Defined.

Lemma errors_and_state_agree_ghost :
  let st1 := mkLoop (World:=unit) ∅ []
               (mkResult wid FAILED [] [("s", "Agent ghost not found")]) tt in
  ((state (result st1) = RUNNING /\ errors (result st1) = []) \/
   (state (result st1) = FAILED /\ errors (result st1) <> [])) /\
  (forall k, is_Some (dict_get k (errors (result st1))) ->
             exists s, s ∈ steps ghost /\ id s = k).
Proof.
  intros st1.
  apply (errors_and_state_agree
           (store_active (orchestrator (World:=unit) (Ctx:=unit) ∅ ghost) wid
                         (initial_result wid))
           ghost tt wid tt 1 st1).
  eapply reaches_round; [apply reaches_start | vm_compute; lia | vm_compute; reflexivity].
Defined.

Lemma no_concurrency_never_ends_stalled :
  run_workflow 100 tt (orchestrator echo_registry stalled) wid None tt = None.
Proof.
  apply (no_concurrency_never_ends tt (orchestrator echo_registry stalled) wid None tt
           stalled).
  - reflexivity.
  - vm_compute. discriminate.
  - left. reflexivity.
Defined.

Lemma echo_never_fails : never_fails (World:=unit) (Ctx:=unit) echo.
Proof. intros t c w. eexists _, _. reflexivity. Defined.

Lemma reliable_run_terminates_cycle :
  exists r self' w',
    run_workflow 2 tt (orchestrator echo_registry cycle) wid None tt
    = Some (Returns r, self', w') /\
    ((state r = COMPLETED /\ errors r = []) \/
     (state r = FAILED /\
      exists remaining, errors r = [("workflow", circular_message remaining)])).
Proof.
  apply (reliable_run_terminates 2 tt (orchestrator echo_registry cycle) wid None tt cycle).
  - reflexivity.
  - intros s Hs. exists echo. split; [|split; [reflexivity | exact echo_never_fails]].
    apply elem_of_cons in Hs as [-> | Hs]; [reflexivity|].
    apply elem_of_cons in Hs as [-> | Hs]; [reflexivity|].
    now apply elem_of_nil in Hs.
  - vm_compute. discriminate.
  - vm_compute. lia.
Defined.

Lemma acyclic_reliable_run_completes_sales :
  exists r self' w',
    run_workflow 2 tt (orchestrator plain_registry sales) wid None idle
    = Some (Returns r, self', w') /\
    state r = COMPLETED /\
    errors r = [] /\
    forall s, s ∈ steps sales -> is_Some (dict_get (id s) (results r)).
Proof.
  apply (acyclic_reliable_run_completes 2 tt (orchestrator plain_registry sales)
           wid None idle sales).
  - reflexivity.
  - exists (steps sales). split; [reflexivity|].
    intros i s dep Hi Hdep. destruct i as [|[|i]]; simpl in Hi; try discriminate.
    + injection Hi as <-. simpl in Hdep. now apply elem_of_nil in Hdep.
    + injection Hi as <-. simpl in Hdep.
      apply elem_of_cons in Hdep as [-> | Hdep]; [|now apply elem_of_nil in Hdep].
      eexists 0%nat, _. split; [lia|]. split; reflexivity.
  - apply (bool_decide_unpack (NoDup (id <$> steps sales))). vm_compute. exact I.
  - intros s Hs. exists Base.plain_agent.
    split; [|split; [reflexivity | apply plain_agent_never_fails]].
    apply elem_of_cons in Hs as [-> | Hs]; [reflexivity|].
    apply elem_of_cons in Hs as [-> | Hs]; [reflexivity|].
    now apply elem_of_nil in Hs.
  - vm_compute. discriminate.
  - vm_compute. lia.
Defined.

Lemma unregistered_agent_never_completes_cycle :
  state (mkResult wid FAILED []
           [("workflow", "Circular dependency detected in steps: ['A', 'B']")])
  = FAILED.
Proof.
  apply (unregistered_agent_never_completes 1 tt (orchestrator echo_registry ghost_cycle)
           wid None tt ghost_cycle (step "A" "ghost" (VStr "x") ["B"]) _
           (orchestrator echo_registry ghost_cycle) tt).
  - reflexivity.
  - left.
  - reflexivity.
  - vm_compute. reflexivity.
Defined.

Lemma run_simple_workflow_missing_key_task :
  exists key,
    (key = "agent" \/ key = "task") /\
    run_simple_workflow 5 tt (mkOrchestrator echo_registry ∅ ∅) wid incomplete_records
                        None tt
    = Some (Raises (String PyStr.squote (key +:+ String PyStr.squote "")),
            mkOrchestrator echo_registry ∅ ∅, tt).
Proof.
  apply (run_simple_workflow_missing_key 5 tt (mkOrchestrator echo_registry ∅ ∅) wid
           incomplete_records None tt (mkRecord None (Some "echo") None None None)).
  - right. left.
  - right. reflexivity.
Defined.

(** The example of [simple_agent_example.py] with plain agents: the report
    step receives the analysis in place of its placeholder. *)
Example sales_run :
  run_simple_workflow 2 tt (mkOrchestrator plain_registry ∅ ∅) wid sales_records None idle
  = Some (Returns (mkResult wid COMPLETED
             [("analyze_data", VStr "Task completed: Analyze sales data for Q4 2023");
              ("generate_report",
               VStr "Task completed: Generate quarterly sales report based on Task completed: Analyze sales data for Q4 2023")]
             []),
          mkOrchestrator plain_registry {[ wid := sales ]} ∅,
          Base.mkFields Base.COMPLETED (Some tt)).
Proof. reflexivity. Qed.

Lemma run_simple_workflow_complete_records_sales :
  let self' := mkOrchestrator plain_registry {[ wid := sales ]} ∅ in
  exists r built,
    Returns (mkResult wid COMPLETED
       [("analyze_data", VStr "Task completed: Analyze sales data for Q4 2023");
        ("generate_report",
         VStr "Task completed: Generate quarterly sales report based on Task completed: Analyze sales data for Q4 2023")]
       []) = Returns r /\
    workflow_id r = wid /\
    workflow_steps 0 sales_records = inr built /\
    length built = length sales_records /\
    workflows self' !! wid = Some (mkDefinition "simple_workflow" built 5) /\
    agents self' = plain_registry /\
    get_workflow_status self' wid = None.
Proof.
  apply (run_simple_workflow_complete_records 2 tt (mkOrchestrator plain_registry ∅ ∅)
           wid sales_records None idle _ _ (Base.mkFields Base.COMPLETED (Some tt))).
  - repeat constructor; eexists; reflexivity.
  - exact sales_run.
Defined.

Lemma prepare_task_without_placeholder_hello :
  _prepare_task (VStr "hello") [("a", VStr "x"); ("hello", VInt 3)] = VStr "hello".
Proof.
  apply (prepare_task_without_placeholder "hello").
  apply contains_false. reflexivity.
Defined.

